(** * Verification of [synthetic_data.py]: the [Gaussian] toy model

    The Python class [Gaussian] draws paired Gaussian vectors with a known
    mutual information (MI).  This development embeds its four methods
    ([generate_example], [sample_cov_matrix], [compute_gaussian_mi],
    [estimate_mvn_mi]) over exact real numbers and MathComp matrices:

    - a number is a Stdlib real; [np.log] keeps the special values of
      IEEE arithmetic ([-inf] at zero, [nan] below zero), because the claims
      distinguish a raised error from a returned non-finite number;
    - the process-wide generator [np.random] is an explicit state threaded
      through every draw;
    - [linalg.eigh] is a black box of the linear-algebra library, a field of
      the record [numpy] beside the generator;
    - [linalg.inv] and [linalg.det] are the exact inverse and determinant,
      and [np.cov] the exact empirical covariance, with the shapes numpy
      gives its result. *)

From Stdlib Require Import Reals Lra Epsilon FunctionalExtensionality.
From HB Require Import structures.
From mathcomp Require Import boot ssralg matrix.

Set Implicit Arguments.
Unset Strict Implicit.
Unset Printing Implicit Defensive.

Import GRing.Theory.

Delimit Scope R_scope with Re.
Local Open Scope ring_scope.

(** ** The reals of the Standard Library as a MathComp field *)

Definition eqr (x y : R) : bool :=
  if Req_dec_T x y is left _ then true else false.

Lemma eqrP : Equality.axiom eqr.
Proof. by move=> x y; rewrite /eqr; case: Req_dec_T => H; constructor. Qed.

HB.instance Definition _ := hasDecEq.Build R eqrP.

Definition pickR (P : pred R) (n : nat) : option R :=
  let x := epsilon (inhabits R0) P in if P x then Some x else None.

Lemma pickR_some (P : pred R) n x : pickR P n = Some x -> P x.
Proof. by rewrite /pickR; case: ifP => // Px [<-]. Qed.

Lemma pickR_ex (P : pred R) : (exists x, P x) -> exists n, pickR P n.
Proof.
by move=> exP; exists 0%N; rewrite /pickR (epsilon_spec (inhabits R0) P exP).
Qed.

Lemma pickR_ext (P Q : pred R) : P =1 Q -> pickR P =1 pickR Q.
Proof.
move=> PQ n; rewrite /pickR.
have -> : P = Q by apply: functional_extensionality.
by [].
Qed.

HB.instance Definition _ := hasChoice.Build R pickR_some pickR_ex pickR_ext.

Lemma RplusA : associative Rplus.
Proof. by move=> x y z; rewrite Rplus_assoc. Qed.

HB.instance Definition _ :=
  GRing.isZmodule.Build R RplusA Rplus_comm Rplus_0_l Rplus_opp_l.

Lemma RmultA : associative Rmult.
Proof. by move=> x y z; rewrite Rmult_assoc. Qed.

Lemma R1_neq_0 : R1 != R0.
Proof. by apply/eqP; apply: R1_neq_R0. Qed.

HB.instance Definition _ :=
  GRing.Zmodule_isComNzRing.Build R
    RmultA Rmult_comm Rmult_1_l Rmult_plus_distr_r R1_neq_0.

(** [Rinv 0 = 0] in the Standard Library, as the field structure asks. *)
Lemma RmultVr (x : R) : x != 0 -> Rmult (Rinv x) x = 1.
Proof. by move=> /eqP x0; rewrite Rinv_l. Qed.

HB.instance Definition _ := GRing.ComNzRing_isField.Build R RmultVr Rinv_0.

(** The ring operations of the field are the ones of the Standard Library. *)
Lemma RplusE (x y : R) : x + y = Rplus x y. Proof. by []. Qed.
Lemma RinvE (x : R) : x^-1 = Rinv x. Proof. by []. Qed.

(** ** Comparisons of reals, as booleans *)

Definition ltR (x y : R) : bool := if Rlt_dec x y is left _ then true else false.

Definition leR (x y : R) : bool := if Rle_dec x y is left _ then true else false.

Definition geR (x y : R) : bool := leR y x.

Lemma ltRP (x y : R) : reflect (Rlt x y) (ltR x y).
Proof. by rewrite /ltR; case: Rlt_dec => H; constructor. Qed.

Lemma leRP (x y : R) : reflect (Rle x y) (leR x y).
Proof. by rewrite /leR; case: Rle_dec => H; constructor. Qed.

(** ** Values of a numpy float: a real, or one of the non-finite values *)

Inductive npfloat : Type :=
  | Finite (x : R)
  | PosInf
  | NegInf
  | NaN.

Definition np_add (a b : npfloat) : npfloat :=
  match a, b with
  | NaN, _ | _, NaN => NaN
  | Finite x, Finite y => Finite (x + y)
  | PosInf, NegInf | NegInf, PosInf => NaN
  | PosInf, _ | _, PosInf => PosInf
  | NegInf, _ | _, NegInf => NegInf
  end.

(** The sign of [x * inf]: [0 * inf] is [nan]. *)
Definition np_scale_inf (x : R) (pos : bool) : npfloat :=
  if ltR 0 x then (if pos then PosInf else NegInf)
  else if ltR x 0 then (if pos then NegInf else PosInf)
  else NaN.

Definition np_mul (a b : npfloat) : npfloat :=
  match a, b with
  | NaN, _ | _, NaN => NaN
  | Finite x, Finite y => Finite (x * y)
  | Finite x, PosInf | PosInf, Finite x => np_scale_inf x true
  | Finite x, NegInf | NegInf, Finite x => np_scale_inf x false
  | PosInf, PosInf | NegInf, NegInf => PosInf
  | PosInf, NegInf | NegInf, PosInf => NegInf
  end.

(** [np.log]: [-inf] at zero and [nan] below (with a warning, no exception). *)
Definition np_log (x : R) : npfloat :=
  if ltR 0 x then Finite (ln x) else if x == 0 then NegInf else NaN.

(** [np.sqrt]: [nan] below zero. *)
Definition np_sqrt (x : R) : npfloat :=
  if ltR x 0 then NaN else Finite (sqrt x).

(** [np.sum] of a one-dimensional array. *)
Definition np_sum (s : seq npfloat) : npfloat := foldr np_add (Finite 0) s.

(** Two-dimensional arrays of numpy floats, with [@] and [np.diag]. *)
Definition fin_mx m n (A : 'M[R]_(m, n)) : 'M[npfloat]_(m, n) :=
  map_mx Finite A.

Definition np_matmul m n p (A : 'M[npfloat]_(m, n)) (B : 'M[npfloat]_(n, p))
  : 'M[npfloat]_(m, p) :=
  \matrix_(i, j) np_sum [seq np_mul (A i k) (B k j) | k <- enum 'I_n].

Definition np_diag n (s : seq npfloat) : 'M[npfloat]_n :=
  \matrix_(i, j) if i == j then nth (Finite 0) s i else Finite 0.

(** A one-dimensional array of length [n] read as a row. *)
Definition vec n (s : seq R) : 'rV[R]_n := \row_i nth 0 s i.

(** [-np.sort(-s)]: ascending sort of the negated array, negated again. *)
Definition np_sort (s : seq R) : seq R := sort leR s.

Definition sort_descending (s : seq R) : seq R :=
  [seq - x | x <- np_sort [seq - x | x <- s]].

(** ** Outcomes: a returned value, a raised exception, or no return *)

Inductive exn : Type := ValueError | IndexError | LinAlgError.

Inductive outcome (T : Type) : Type :=
  | Return (x : T)
  | Raise (e : exn)
  | Diverge.

Arguments Raise {T} e.
Arguments Diverge {T}.

Definition bind T U (c : outcome T) (k : T -> outcome U) : outcome U :=
  match c with
  | Return x => k x
  | Raise e => Raise e
  | Diverge => Diverge
  end.

Notation "x <- c ;; k" := (bind c (fun x => k))
  (at level 100, c at next level, right associativity).

Definition returns T (c : outcome T) : bool :=
  if c is Return _ then true else false.


(** [v.min()] of a one-dimensional array: a [ValueError] on an empty one. *)
Definition np_min n : 'rV[R]_n -> outcome R :=
  if n is n'.+1 then
    fun v => Return (foldr Rmin (v 0 ord0) [seq v 0 i | i <- enum 'I_n'.+1])
  else fun=> Raise ValueError.

(** [linalg.inv]: [LinAlgError] on a singular matrix. *)
Definition linalg_inv n (A : 'M[R]_n) : outcome 'M[R]_n :=
  if A \in unitmx then Return (invmx A) else Raise LinAlgError.

Definition linalg_det n (A : 'M[R]_n) : R := \det A.

(** ** The numerical library behind the class

    [np.random] is one process-wide generator: its state is threaded through
    every draw.  [random_sample] is the draw from [[0, 1)] that
    [np.random.uniform] scales, [standard_normal] the draw that
    [np.random.normal] scales; [eigh] is the symmetric eigensolver
    (eigenvalues, then eigenvectors in the columns). *)

Record numpy : Type := Numpy {
  rng_state : Type;
  random_sample : rng_state -> R * rng_state;
  standard_normal : rng_state -> R * rng_state;
  eigh : forall n : nat, 'M[R]_n -> 'rV[R]_n * 'M[R]_n
}.

(** What the generator promises about [random_sample]: a value of [[0, 1)]. *)
Definition unit_interval_rng (np : numpy) : Prop :=
  forall st : rng_state np,
    (0 <= (random_sample st).1 < 1)%Re.

Section Draws.

Variable np : numpy.

(** [size] successive draws, in the order the generator is consumed. *)
Fixpoint draws (draw : rng_state np -> R * rng_state np) (size : nat)
    (st : rng_state np) : seq R * rng_state np :=
  if size is size'.+1 then
    let: (x, st1) := draw st in
    let: (xs, st2) := draws draw size' st1 in
    (x :: xs, st2)
  else ([::], st).

(** One draw of [np.random.uniform(low, high)]: [low + (high - low) * u]. *)
Definition uniform1 (low high : R) (st : rng_state np) : R * rng_state np :=
  let: (u, st1) := random_sample st in (low + (high - low) * u, st1).

(** One draw of [np.random.normal(loc, scale)]. *)
Definition normal1 (loc scale : R) (st : rng_state np) : R * rng_state np :=
  let: (z, st1) := standard_normal st in (loc + scale * z, st1).

(** [np.random.uniform(low, high, size=size)], a one-dimensional array. *)
Definition uniform (low high : R) (size : nat) (st : rng_state np)
  : seq R * rng_state np :=
  draws (uniform1 low high) size st.

(** [np.random.normal(loc, scale, size=(m, n))], filled row by row. *)
Definition normal (loc scale : R) (m n : nat) (st : rng_state np)
  : 'M[R]_(m, n) * rng_state np :=
  let: (zs, st1) := draws (normal1 loc scale) (m * n) st in
  (\matrix_(i < m, j < n) nth 0 zs (i * n + j), st1).

End Draws.

(** ** The class [Gaussian] *)

Record gen_params (dim : nat) : Type := GenParams {
  sigma_xx : 'M[R]_dim;
  sigma_yy : 'M[R]_dim;
  rhoz : seq R
}.

(** What [generate_example] returns: [data_x, data_y, MI, gen_params]. *)
Record example (dim n_samples : nat) : Type := Example {
  data_x : 'M[npfloat]_(dim, n_samples);
  data_y : 'M[npfloat]_(dim, n_samples);
  MI : npfloat;
  params : gen_params dim
}.

Definition half : R := 2%:R^-1.

(** [(u < 0.5) - 0.5], with the boolean read as 1 or 0. *)
Definition bool_minus_half (b : bool) : R := (if b then 1 else 0) - half.

Section Gaussian.

Variable np : numpy.

(** *** [sample_cov_matrix] *)

(** Lines 122-123: the spectrum, drawn from [uniform(1, cond)] and sorted. *)
Definition sample_spectrum (dim : nat) (cond : R) (st : rng_state np)
  : seq R * rng_state np :=
  let: (spectrum, st1) := uniform 1 cond dim st in
  (sort_descending spectrum, st1).

(** Lines 126-132: [while mini < 0], entered with [mini = -1] and
    [eigenvectors = np.eye(dim)].  [fuel] bounds the number of passes the
    model follows; the loop itself has no bound. *)
Fixpoint rotation_loop (fuel : nat) (dim : nat) (mini : R)
    (eigenvectors : 'M[R]_dim) (st : rng_state np)
  : outcome ('M[R]_dim * rng_state np) :=
  if ltR mini 0 then
    if fuel is fuel'.+1 then
      let: (M, st1) := normal 0 1 dim dim st in
      let M' := M *m M^T in
      let: (dummy_spectrum, eigenvectors') := eigh np M' in
      mini' <- np_min dummy_spectrum ;;
      rotation_loop fuel' mini' eigenvectors' st1
    else Diverge
  else Return (eigenvectors, st).

(** One pass of the loop body (lines 129-132) at state [st]: the minimum of the
    eigenvalues found, the eigenvectors, and the generator after the draw. *)
Definition attempt (dim : nat) (st : rng_state np)
  : outcome R * 'M[R]_dim * rng_state np :=
  let: (M, st1) := normal 0 1 dim dim st in
  let: (dummy_spectrum, eigenvectors) := eigh np (M *m M^T) in
  (np_min dummy_spectrum, eigenvectors, st1).

(** The generator after one more pass, and whether the pass drawn at [st]
    ends the loop (its minimum eigenvalue is not negative). *)
Definition next_state (dim : nat) (st : rng_state np) : rng_state np :=
  (attempt dim st).2.

Definition passes (dim : nat) (st : rng_state np) : bool :=
  if (attempt dim st).1.1 is Return mini then ~~ ltR mini 0 else false.

(** The generator before pass number [k] of a loop entered at [st], and the
    number of the first pass, among [fuel], that ends the loop. *)
Definition pass_state (dim : nat) (st : rng_state np) (k : nat) : rng_state np :=
  iter k (next_state dim) st.

Definition first_pass (fuel dim : nat) (st : rng_state np) : nat :=
  find (fun k => passes dim (pass_state dim st k)) (iota 0 fuel).

Definition sample_cov_matrix (fuel : nat) (dim : nat) (cond : R)
    (st : rng_state np)
  : outcome ('M[R]_dim * seq R * 'M[R]_dim * rng_state np) :=
  let: (spectrum, st1) := sample_spectrum dim cond st in
  r <- rotation_loop fuel (- 1) (1%:M : 'M[R]_dim) st1 ;;
  let: (eigenvectors, st2) := r in
  let cov_matrix := eigenvectors *m diag_mx (vec dim spectrum) *m eigenvectors^T in
  Return (cov_matrix, spectrum, eigenvectors, st2).

(** *** [generate_example] *)

(** Lines 77-78: magnitudes from [uniform(rhoz_lims)], then a sign per
    coordinate from a second batch of draws of [uniform(0, 1)]. *)
Definition sample_rhoz (dim : nat) (rhoz_lims : R * R) (st : rng_state np)
  : seq R * rng_state np :=
  let: (magnitudes, st1) := uniform rhoz_lims.1 rhoz_lims.2 dim st in
  let: (u, st2) := uniform 0 1 dim st1 in
  ([seq p.1 * bool_minus_half (ltR p.2 half) * 2%:R | p <- zip magnitudes u],
   st2).

(** Line 81: [MI = -0.5 * np.sum(np.log(1 - rhoz**2))]. *)
Definition exact_mi (rhoz : seq R) : npfloat :=
  np_mul (Finite (- half)) (np_sum [seq np_log (1 - r ^+ 2) | r <- rhoz]).

Definition generate_example (fuel : nat) (dim n_samples : nat)
    (rhoz_lims : R * R) (cond : R * R) (st : rng_state np)
  : outcome (example dim n_samples * rng_state np) :=
  let: (rhoz, st1) := sample_rhoz dim rhoz_lims st in
  let MI := exact_mi rhoz in
  let: (zx, st2) := normal 0 1 dim n_samples st1 in
  let: (noise, st3) := normal 0 1 n_samples dim st2 in
  let zyT : 'M[npfloat]_(n_samples, dim) :=
    \matrix_(s, i) np_add (Finite (nth 0 rhoz i * zx^T s i))
                     (np_mul (np_sqrt (1 - nth 0 rhoz i ^+ 2)) (Finite (noise s i))) in
  let zy := zyT^T in
  rx <- sample_cov_matrix fuel dim cond.1 st3 ;;
  let: (sigma_xx, spectrum_xx, eigenvectors_xx, st4) := rx in
  let data_x :=
    np_matmul (np_matmul (fin_mx eigenvectors_xx)
                         (np_diag dim [seq np_sqrt x | x <- spectrum_xx]))
              (fin_mx zx) in
  ry <- sample_cov_matrix fuel dim cond.2 st4 ;;
  let: (sigma_yy, spectrum_yy, eigenvectors_yy, st5) := ry in
  let data_y :=
    np_matmul (np_matmul (fin_mx eigenvectors_yy)
                         (np_diag dim [seq np_sqrt x | x <- spectrum_yy]))
              zy in
  Return (Example data_x data_y MI (GenParams sigma_xx sigma_yy rhoz), st5).

End Gaussian.

(** *** [compute_gaussian_mi]

    [cov_matrix] is a square array with [dx + dy] rows and [dim = dx]: the
    slices [[:dim, :dim]], [[:dim, dim:]] and [[dim:, dim:]] are its upper-left,
    upper-right and lower-right blocks.  [dx = dy] is the documented use. *)
Definition compute_gaussian_mi (dx dy : nat) (cov_matrix : 'M[R]_(dx + dy))
  : outcome npfloat :=
  let sigma_xx := ulsubmx cov_matrix in
  let sigma_xy := ursubmx cov_matrix in
  let sigma_yy := drsubmx cov_matrix in
  inv_xx <- linalg_inv sigma_xx ;;
  let Bxy := inv_xx *m sigma_xy in
  inv_yy <- linalg_inv sigma_yy ;;
  let Byx := inv_yy *m sigma_xy^T in
  let MI := np_mul (Finite (- half)) (np_log (linalg_det (1%:M - Bxy *m Byx))) in
  Return MI.

(** *** [estimate_mvn_mi] *)

(** What [np.cov] hands back for [r] variables: it squeezes its result, so a
    single variable gives a 0-d array; fewer than two observations give an
    array of [nan]; no variable gives the empty 0 x 0 array. *)
Inductive cov_array (r : nat) : Type :=
  | Cov0d
  | Cov2d (C : 'M[R]_r)
  | CovNaN.

Arguments Cov0d {r}.
Arguments CovNaN {r}.

Definition np_cov r n (m : 'M[R]_(r, n)) : cov_array r :=
  let avg : 'cV[R]_r := \col_i (n%:R^-1 * \sum_k m i k) in
  let X := m - avg *m const_mx 1 in
  let fact : R := (n.-1)%:R in
  let c := fact^-1 *: (X *m X^T) in
  if r == 0%N then Cov2d c
  else if r == 1%N then Cov0d
  else if (n <= 1)%N then CovNaN
  else Cov2d c.

Lemma split_rows (r : nat) : (r %/ 2 + (r - r %/ 2) = r)%N.
Proof. by rewrite subnKC // leq_div. Qed.

(** [Chat.shape[0]] fails on a 0-d array; [linalg.inv] refuses an array that
    holds [nan]; [int(r / 2)] is the floor of the half. *)
Definition estimate_mvn_mi r n (data : 'M[R]_(r, n)) : outcome npfloat :=
  match np_cov data with
  | Cov0d => Raise IndexError
  | CovNaN => Raise ValueError
  | Cov2d Chat =>
      let dim := (r %/ 2)%N in
      compute_gaussian_mi (dx := dim) (dy := r - dim)
        (castmx (esym (split_rows r), esym (split_rows r)) Chat)
  end.

(** ** Notions the properties are stated with *)

(** A run that is followed for ever without returning. *)
Definition never_returns T (run : nat -> outcome T) : Prop :=
  forall fuel, run fuel = Diverge.

(** The generator when [sample_cov_matrix] is first called: after the draws
    of [rhoz], [zx] and the noise of [zy]. *)
Definition state_before_cov np (dim n_samples : nat) (rhoz_lims : R * R)
    (st : rng_state np) : rng_state np :=
  let: (_, st1) := sample_rhoz dim rhoz_lims st in
  let: (_, st2) := normal 0 1 dim n_samples st1 in
  let: (_, st3) := normal 0 1 n_samples dim st2 in
  st3.

(** The two batches of draws behind [rhoz]: the magnitudes, then the draws of
    [uniform(0, 1)] that decide the signs. *)
Definition rhoz_magnitudes np (dim : nat) (rhoz_lims : R * R)
    (st : rng_state np) : seq R :=
  (uniform rhoz_lims.1 rhoz_lims.2 dim st).1.

Definition rhoz_sign_draws np (dim : nat) (rhoz_lims : R * R)
    (st : rng_state np) : seq R :=
  (uniform 0 1 dim (uniform rhoz_lims.1 rhoz_lims.2 dim st).2).1.

(** The three blocks the function slices out of a square array of
    [dx + dy] rows, entry by entry: [[:dim, :dim]], [[:dim, dim:]] and
    [[dim:, dim:]]. *)
Definition slice_xx dx dy (C : 'M[R]_(dx + dy)) : 'M[R]_dx :=
  \matrix_(i, j) C (lshift dy i) (lshift dy j).

Definition slice_xy dx dy (C : 'M[R]_(dx + dy)) : 'M[R]_(dx, dy) :=
  \matrix_(i, j) C (lshift dy i) (rshift dx j).

Definition slice_yy dx dy (C : 'M[R]_(dx + dy)) : 'M[R]_dy :=
  \matrix_(i, j) C (rshift dx i) (rshift dx j).

(** The formula of the spec: [-0.5 * log(det(I - Bxy @ Byx))] with
    [Bxy = inv(Sxx) @ Sxy], [Byx = inv(Syy) @ Sxy.T]. *)
Definition mi_det dx dy (Sxx : 'M[R]_dx) (Sxy : 'M[R]_(dx, dy))
    (Syy : 'M[R]_dy) : R :=
  let Bxy := invmx Sxx *m Sxy in
  let Byx := invmx Syy *m Sxy^T in
  \det (1%:M - Bxy *m Byx).

Definition mi_formula dx dy (Sxx : 'M[R]_dx) (Sxy : 'M[R]_(dx, dy))
    (Syy : 'M[R]_dy) : npfloat :=
  np_mul (Finite (- half)) (np_log (mi_det Sxx Sxy Syy)).

(** An entry of the lower-left block: row in [[dim:]], column in [[:dim]]. *)
Definition in_lower_left dx dy (i j : 'I_(dx + dy)) : bool :=
  (dx <= i)%N && (j < dx)%N.



(** A 2 x 2 array with 1 x 1 blocks. *)
Definition mx2 (a b c d : R) : 'M[R]_(1 + 1) :=
  block_mx (a%:M : 'M_1) (b%:M : 'M_1) (c%:M : 'M_1) (d%:M : 'M_1).

(** The latent draws of lines 84-85: [zx], then the noise of [zy], drawn
    after [rhoz]. *)
Definition latent_zx np (dim n_samples : nat) (rhoz_lims : R * R)
    (st : rng_state np) : 'M[R]_(dim, n_samples) :=
  (normal 0 1 dim n_samples (sample_rhoz dim rhoz_lims st).2).1.

Definition latent_noise np (dim n_samples : nat) (rhoz_lims : R * R)
    (st : rng_state np) : 'M[R]_(n_samples, dim) :=
  (normal 0 1 n_samples dim
     (normal 0 1 dim n_samples (sample_rhoz dim rhoz_lims st).2).2).1.

(** Lines 85-86 over the reals:
    [zy[i, s] = rhoz[i] * zx[i, s] + sqrt(1 - rhoz[i]^2) * noise[s, i]]. *)
Definition latent_zy (dim n_samples : nat) (rhoz : seq R)
    (zx : 'M[R]_(dim, n_samples)) (noise : 'M[R]_(n_samples, dim))
  : 'M[R]_(dim, n_samples) :=
  \matrix_(i, s) (nth 0 rhoz i * zx i s
                  + sqrt (1 - nth 0 rhoz i ^+ 2) * noise s i).

(** Lines 89 and 92 over the reals: [eigenvectors @ diag(sqrt(spectrum))]. *)
Definition coloring (dim : nat) (E : 'M[R]_dim) (spectrum : seq R) : 'M[R]_dim :=
  E *m diag_mx (vec dim [seq sqrt x | x <- spectrum]).

Definition is_nan (v : npfloat) : bool := if v is NaN then true else false.

(** The array with the two sides exchanged, [(y, x)] for [(x, y)]. *)
Definition swap_sides dx dy (C : 'M[R]_(dx + dy)) : 'M[R]_(dy + dx) :=
  block_mx (drsubmx C) (dlsubmx C) (ursubmx C) (ulsubmx C).

(** The covariance of [(A x, B y)] when [C] is the covariance of [(x, y)]. *)
Definition transform_sides dx dy (A : 'M[R]_dx) (B : 'M[R]_dy)
    (C : 'M[R]_(dx + dy)) : 'M[R]_(dx + dy) :=
  let T := block_mx A 0 0 B in T *m C *m T^T.

(** The matrix [np.cov] computes from [r] rows of [n] observations: the rows
    are centred on their means and the products are divided by [n - 1]. *)
Definition cov_estimate r n (m : 'M[R]_(r, n)) : 'M[R]_r :=
  let avg : 'cV[R]_r := \col_i (n%:R^-1 * \sum_k m i k) in
  let X := m - avg *m const_mx 1 in
  (n.-1)%:R^-1 *: (X *m X^T).

(** The data with [shift i] added to every observation of row [i]. *)
Definition shift_rows r n (shift : 'cV[R]_r) (data : 'M[R]_(r, n)) : 'M[R]_(r, n) :=
  data + shift *m const_mx 1.

(** ** A small library to run the model on

    [fixed_np u e]: every [random_sample] is [u], every [standard_normal] is 1,
    and the eigensolver answers the eigenvalue [e] (repeated) with the identity
    as eigenvectors.  The state counts the draws. *)
Definition fixed_np (u e : R) : numpy :=
  {| rng_state := nat;
     random_sample := fun st => (u, st.+1);
     standard_normal := fun st => (1, st.+1);
     eigh := fun n _ => (const_mx e, 1%:M) |}.

(** * Properties *)

(** ** Draws *)

Section DrawFacts.

Variable np : numpy.
Implicit Types (draw : rng_state np -> R * rng_state np) (st : rng_state np).

Lemma size_draws draw n st : size (draws draw n st).1 = n.
Proof.
elim: n st => [|n IH] st //=.
by case: (draw st) => x st1; move: (IH st1); case: (draws draw n st1) => xs st2 /= ->.
Qed.

Lemma all_draws (P : pred R) draw n st :
  (forall st', P (draw st').1) -> all P (draws draw n st).1.
Proof.
move=> Pdraw; elim: n st => [|n IH] st //=.
move: (Pdraw st); case: (draw st) => x st1 /= Px.
by move: (IH st1); case: (draws draw n st1) => xs st2 /= ->; rewrite Px.
Qed.

Lemma size_uniform low high n st : size (uniform low high n st).1 = n.
Proof. exact: size_draws. Qed.

End DrawFacts.

(** ** Real arithmetic *)

Lemma natr2 : (2%:R : R) = 2%Re.
Proof. by rewrite /GRing.natmul /= RplusE. Qed.

Lemma halfE : half = (/ 2)%Re.
Proof. by rewrite /half RinvE natr2. Qed.

(** Goals on the field operations, handed to [lra] and [nra] as goals on the
    operations of the Standard Library. *)
Ltac to_R :=
  rewrite ?halfE ?natr2;
  rewrite /GRing.one /GRing.zero /GRing.add /GRing.opp /GRing.mul /GRing.inv /=;
  try match goal with |- @eq _ ?a ?b => change (@eq R a b) end.

Lemma leR_total : total leR.
Proof.
move=> x y; apply/orP; case: (Rle_lt_dec x y) => H; [left|right]; apply/leRP => //.
exact: Rlt_le.
Qed.

Lemma leR_trans : transitive leR.
Proof. move=> y x z /leRP xy /leRP yz; apply/leRP; exact: Rle_trans yz. Qed.

Section UniformRange.

Variable np : numpy.
Hypothesis rng_ok : unit_interval_rng np.

Lemma uniform1_range (low high : R) (st : rng_state np) :
  Rle low high ->
  Rle low (uniform1 low high st).1 /\ Rle (uniform1 low high st).1 high.
Proof.
move=> lh; rewrite /uniform1; case: (rng_ok st).
by case: (random_sample st) => u st1 /= u0 u1; to_R; split; nra.
Qed.

Lemma uniform1_lt (low high : R) (st : rng_state np) :
  Rlt low high -> Rlt (uniform1 low high st).1 high.
Proof.
move=> lh; rewrite /uniform1; case: (rng_ok st).
by case: (random_sample st) => u st1 /= u0 u1; to_R; nra.
Qed.

End UniformRange.

(** ** [-np.sort(-s)] sorts in descending order *)

Lemma size_sort_descending (s : seq R) : size (sort_descending s) = size s.
Proof. by rewrite /sort_descending /np_sort size_map size_sort size_map. Qed.

Lemma all_sort_descending (P : pred R) (s : seq R) :
  all P (sort_descending s) = all P s.
Proof.
rewrite /sort_descending /np_sort all_map all_sort all_map.
by apply: eq_all => x /=; rewrite opprK.
Qed.

Lemma sorted_sort_descending (s : seq R) : sorted geR (sort_descending s).
Proof.
rewrite /sort_descending sorted_map.
have /eq_sorted -> : relpre -%R geR =2 leR.
  move=> x y; rewrite /= /geR; apply/leRP/leRP; to_R; lra.
exact: (sort_sorted leR_total).
Qed.

(** ** [sample_cov_matrix]: the spectrum *)

Section Spectrum.

Variable np : numpy.
Implicit Types (st : rng_state np) (cond : R).

Lemma size_sample_spectrum dim cond st :
  size (sample_spectrum dim cond st).1 = dim.
Proof.
rewrite /sample_spectrum; move: (size_uniform 1 cond dim st).
by case: (uniform _ _ _ _) => s st1 /= <-; rewrite size_sort_descending.
Qed.

Lemma sorted_sample_spectrum dim cond st :
  sorted geR (sample_spectrum dim cond st).1.
Proof.
rewrite /sample_spectrum; case: (uniform _ _ _ _) => s st1 /=.
exact: sorted_sort_descending.
Qed.

Lemma range_sample_spectrum dim cond st :
  unit_interval_rng np -> Rle 1 cond ->
  all (fun x => leR 1 x && leR x cond) (sample_spectrum dim cond st).1.
Proof.
move=> rng_ok c1; rewrite /sample_spectrum.
have := @all_draws np (fun x => leR 1 x && leR x cond) (uniform1 1 cond) dim st.
rewrite /uniform; case: (draws _ _ _) => s st1 /= H.
rewrite all_sort_descending; apply: H => st'.
by case: (uniform1_range rng_ok st' c1) => /leRP -> /leRP ->.
Qed.

Lemma rotation_loopS fuel dim mini (E : 'M[R]_dim) st :
  rotation_loop fuel.+1 mini E st =
  if ltR mini 0 then
    (mini' <- (attempt dim st).1.1 ;;
     rotation_loop fuel mini' (attempt dim st).1.2 (attempt dim st).2)
  else Return (E, st).
Proof.
rewrite /= /attempt; case: (normal _ _ _ _ _) => M st1.
by case: (eigh _ _) => ds E'.
Qed.

Lemma sample_cov_matrix_Return fuel dim cond st C spectrum E st' :
  sample_cov_matrix fuel dim cond st = Return (C, spectrum, E, st') ->
  spectrum = (sample_spectrum dim cond st).1 /\
  C = E *m diag_mx (vec dim spectrum) *m E^T.
Proof.
rewrite /sample_cov_matrix; case: (sample_spectrum _ _ _) => s st1 /=.
by case: (rotation_loop _ _ _ _) => //= -[E' st2] [<- <- <- _].
Qed.

End Spectrum.

(** ** [sample_cov_matrix]: the retry loop *)

Section RetryLoop.

Variable np : numpy.
Implicit Types (st : rng_state np) (cond : R).

Lemma attempt_min_succ dim st : exists m, (attempt dim.+1 st).1.1 = Return m.
Proof.
rewrite /attempt; case: (normal _ _ _ _ _) => M st1.
by case: (eigh _ _) => ds E /=; eexists.
Qed.

Lemma rotation_loop_done fuel dim mini (E : 'M[R]_dim) st :
  ~~ ltR mini 0 -> rotation_loop fuel mini E st = Return (E, st).
Proof. by case: fuel => [|fuel] /= /negbTE ->. Qed.

Lemma first_passS fuel dim st :
  first_pass fuel.+1 dim st =
  if passes dim st then 0%N else (first_pass fuel dim (next_state dim st)).+1.
Proof.
rewrite /first_pass /= -[1%N]addn0 iotaDl find_map.
rewrite (eq_find (a2 := fun k => passes dim (pass_state dim (next_state dim st) k))) //.
by move=> k /=; rewrite add0n /pass_state -iterS iterSr.
Qed.

(** The loop returns at the first pass that is not negative, with the
    eigenvectors of that pass; it makes no other exit. *)
Lemma rotation_loop_first_pass fuel dim mini (E : 'M[R]_dim.+1) st :
  ltR mini 0 ->
  rotation_loop fuel mini E st =
  let k := first_pass fuel dim.+1 st in
  if (k < fuel)%N then
    Return ((attempt dim.+1 (pass_state dim.+1 st k)).1.2,
            pass_state dim.+1 st k.+1)
  else Diverge.
Proof.
elim: fuel mini E st => [|fuel IH] mini E st neg; first by rewrite /= neg.
rewrite rotation_loopS neg first_passS /passes.
case: (attempt_min_succ dim st) => m Em; rewrite Em /=.
case: (boolP (ltR m 0)) => /= [neg'|nonneg]; last by rewrite rotation_loop_done.
by rewrite IH // ltnS /pass_state -!iterSr.
Qed.

End RetryLoop.

Section RetryLoopOutcome.

Variable np : numpy.
Implicit Types (st : rng_state np) (cond : R).

Lemma sample_cov_matrix_first_pass fuel dim cond st :
  let: (spectrum, st1) := sample_spectrum dim.+1 cond st in
  sample_cov_matrix fuel dim.+1 cond st =
  let k := first_pass fuel dim.+1 st1 in
  if (k < fuel)%N then
    let E := (attempt dim.+1 (pass_state dim.+1 st1 k)).1.2 in
    Return (E *m diag_mx (vec dim.+1 spectrum) *m E^T, spectrum, E,
            pass_state dim.+1 st1 k.+1)
  else Diverge.
Proof.
have neg : ltR (- 1) 0 by apply/ltRP; to_R; lra.
rewrite /sample_cov_matrix; case: (sample_spectrum _ _ _) => s st1.
by rewrite rotation_loop_first_pass //=; case: ifP.
Qed.

Lemma sample_cov_matrix_returns fuel dim cond st :
  passes dim.+1 (sample_spectrum dim.+1 cond st).2 ->
  sample_cov_matrix fuel.+1 dim.+1 cond st =
  let: (spectrum, st1) := sample_spectrum dim.+1 cond st in
  let E := (attempt dim.+1 st1).1.2 in
  Return (E *m diag_mx (vec dim.+1 spectrum) *m E^T, spectrum, E,
          next_state dim.+1 st1).
Proof.
move: (sample_cov_matrix_first_pass fuel.+1 dim cond st).
case: (sample_spectrum _ _ _) => s st1 /= -> ok.
by rewrite first_passS ok.
Qed.

Lemma sample_cov_matrix0 fuel cond st :
  sample_cov_matrix fuel.+1 0 cond st = Raise ValueError.
Proof.
rewrite /sample_cov_matrix; case: (sample_spectrum _ _ _) => s st1.
have neg : ltR (- 1) 0 by apply/ltRP; to_R; lra.
rewrite rotation_loopS neg.
by rewrite /attempt; case: (normal _ _ _ _ _) => M st2; case: (eigh _ _).
Qed.

End RetryLoopOutcome.

(** ** The fixed libraries *)

Lemma np_min_const n (e : R) : np_min (const_mx e : 'rV_n.+1) = Return e.
Proof.
rewrite /= mxE; congr Return.
elim: (enum _) => [|i s IH] //=.
by rewrite IH mxE; apply: Rmin_left; apply: Rle_refl.
Qed.

Lemma passes_fixed_np (u e : R) dim (st : rng_state (fixed_np u e)) :
  passes dim.+1 st = ~~ ltR e 0.
Proof.
have -> : passes dim.+1 st =
    if np_min (const_mx e : 'rV_dim.+1) is Return mini then ~~ ltR mini 0
    else false.
  by rewrite /passes /attempt; case: (normal _ _ _ _ _).
by rewrite np_min_const.
Qed.

Lemma fixed_np_unit_interval (u e : R) :
  (0 <= u < 1)%Re -> unit_interval_rng (fixed_np u e).
Proof. by move=> u01 st. Qed.

Lemma sample_cov_matrix_stuck np dim cond (st : rng_state np) :
  (forall st' : rng_state np, ~~ passes dim.+1 st') ->
  never_returns (fun fuel => sample_cov_matrix fuel dim.+1 cond st).
Proof.
move=> stuck fuel; move: (sample_cov_matrix_first_pass fuel dim cond st).
case: (sample_spectrum _ _ _) => s st1 ->.
rewrite /= -[X in (_ < X)%N](size_iota 0) -has_find.
by rewrite (@eq_has _ _ pred0) ?has_pred0 // => k /=; apply: negbTE.
Qed.

(** C7. Whenever [sample_cov_matrix(dim, cond)] returns with [cond >= 1], on a
    generator whose unit draws lie in [[0, 1)], the spectrum has exactly [dim]
    entries, each of them lies in [[1, cond]], and it is in descending
    order: [spectrum[j] <= spectrum[i]] for [i <= j < dim]. *)
Theorem sample_cov_matrix_spectrum np fuel dim cond (st st' : rng_state np)
    (C E : 'M[R]_dim) (spectrum : seq R) :
  unit_interval_rng np -> (1 <= cond)%Re ->
  sample_cov_matrix fuel dim cond st = Return (C, spectrum, E, st') ->
  [/\ size spectrum = dim,
      forall i, (i < dim)%N ->
        let x := nth 0 spectrum i in (1 <= x <= cond)%Re
    & forall i j, (i <= j < dim)%N ->
        (nth 0 spectrum j <= nth 0 spectrum i)%Re].
Proof.
move=> rng_ok c1 /sample_cov_matrix_Return [-> _].
have sz := size_sample_spectrum dim cond st.
split=> // [i lt_i|i j /andP[le_ij lt_j]].
  have /allP/(_ (nth 0 (sample_spectrum dim cond st).1 i)) :=
    range_sample_spectrum dim st rng_ok c1.
  by rewrite mem_nth ?sz // => /(_ isT) /andP[/leRP ? /leRP ?].
have geR_trans : transitive geR by move=> y x z xy yz; apply: leR_trans xy.
have geR_refl : reflexive geR by move=> x; apply/leRP; apply: Rle_refl.
apply/leRP; apply: (sorted_leq_nth geR_trans geR_refl) => //.
- exact: sorted_sample_spectrum.
- by rewrite inE sz (leq_ltn_trans le_ij).
- by rewrite inE sz.
Qed.

(** C8, as the code has it.  The loop of [sample_cov_matrix] has no cap and
    no fallback: followed for [fuel] passes, the call has returned when one of
    these passes found a minimum eigenvalue that is not negative, and is still
    looping otherwise. *)
Theorem retry_loop_has_no_bound np fuel dim cond (st : rng_state np) :
  let st1 := (sample_spectrum dim.+1 cond st).2 in
  if has (fun k => passes dim.+1 (pass_state dim.+1 st1 k)) (iota 0 fuel)
  then returns (sample_cov_matrix fuel dim.+1 cond st) = true
  else sample_cov_matrix fuel dim.+1 cond st = Diverge.
Proof.
move: (sample_cov_matrix_first_pass fuel dim cond st).
case: (sample_spectrum _ _ _) => s st1 -> /=.
by rewrite has_find size_iota /first_pass; case: (_ < _)%N.
Qed.

Lemma sample_cov_matrix_spectrum_witness :
  let np := fixed_np half 1 in
  let spectrum := (@sample_spectrum np 2 3%Re 0%N).1 in
  [/\ size spectrum = 2%N,
      forall i, (i < 2)%N ->
        let x := nth 0 spectrum i in (1 <= x <= 3)%Re
    & forall i j, (i <= j < 2)%N ->
        (nth 0 spectrum j <= nth 0 spectrum i)%Re].
Proof.
move=> np spectrum.
have rng_ok : unit_interval_rng np.
  by apply: fixed_np_unit_interval; to_R; lra.
have c1 : (1 <= 3)%Re by lra.
have ok : passes 2 (@sample_spectrum np 2 3%Re 0%N).2.
  by rewrite passes_fixed_np; apply/ltRP; to_R; lra.
have := sample_cov_matrix_returns 0 ok.
rewrite /spectrum; case: (sample_spectrum _ _ _) => s st1 /= run.
exact: (sample_cov_matrix_spectrum rng_ok c1 run).
Defined.

(** C8, as the spec has it, fails: on a library whose eigensolver answers a
    negative minimum eigenvalue at every draw, [sample_cov_matrix] is still
    looping after any number of passes. *)
Lemma retry_loop_never_returns :
  never_returns
    (fun fuel => @sample_cov_matrix (fixed_np 0 (- 1)) fuel 1 10%Re 0%N).
Proof.
apply: sample_cov_matrix_stuck => st'.
by rewrite passes_fixed_np negbK; apply/ltRP; to_R; lra.
Qed.

(** ** [generate_example] *)

Section GenerateExample.

Variable np : numpy.
Implicit Types (st : rng_state np) (rhoz_lims cond : R * R).

Lemma generate_example_Return fuel dim n rhoz_lims cond st
    (res : example dim n) st' :
  generate_example fuel dim n rhoz_lims cond st = Return (res, st') ->
  [/\ rhoz (params res) = (sample_rhoz dim rhoz_lims st).1,
      MI res = exact_mi (rhoz (params res)),
      exists sx Ex st4,
        sample_cov_matrix fuel dim cond.1 (state_before_cov dim n rhoz_lims st)
        = Return (sigma_xx (params res), sx, Ex, st4)
    & exists sy Ey st4,
        sample_cov_matrix fuel dim cond.2 st4
        = Return (sigma_yy (params res), sy, Ey, st')].
Proof.
rewrite /generate_example /state_before_cov.
case: (sample_rhoz _ _ _) => r st1; case: (normal _ _ _ _ _) => zx st2.
case: (normal _ _ _ _ _) => nz st3 /=.
case ex: (sample_cov_matrix _ _ _ _) => [[[[Cx sx] Ex] st4]| |] //=.
case ey: (sample_cov_matrix _ _ _ _) => [[[[Cy sy] Ey] st5]| |] //= [<- <-] /=.
by split=> //; [exists sx, Ex, st4 | exists sy, Ey, st4].
Qed.




Lemma generate_example_returns fuel dim n rhoz_lims cond st :
  (forall st', passes dim.+1 st') ->
  exists res st',
    @generate_example np fuel.+1 dim.+1 n rhoz_lims cond st = Return (res, st').
Proof.
move=> ok; rewrite /generate_example.
case: (sample_rhoz _ _ _) => r st1; case: (normal _ _ _ _ _) => zx st2.
case: (normal _ _ _ _ _) => nz st3 /=.
rewrite sample_cov_matrix_returns //; case: (sample_spectrum _ _ _) => sx st4 /=.
rewrite sample_cov_matrix_returns //; case: (sample_spectrum _ _ _) => sy st5 /=.
by eexists; eexists.
Qed.

End GenerateExample.

(** ** The correlation vector *)

Section Rhoz.

Variable np : numpy.
Implicit Types (st : rng_state np) (rhoz_lims : R * R).

Lemma sample_rhozE dim rhoz_lims st :
  (sample_rhoz dim rhoz_lims st).1 =
  [seq p.1 * bool_minus_half (ltR p.2 half) * 2%:R
  | p <- zip (rhoz_magnitudes dim rhoz_lims st) (rhoz_sign_draws dim rhoz_lims st)].
Proof.
rewrite /sample_rhoz /rhoz_magnitudes /rhoz_sign_draws.
by case: (uniform _ _ _ _) => ms st1; case: (uniform _ _ _ _).
Qed.

Lemma size_sample_rhoz dim rhoz_lims st :
  size (sample_rhoz dim rhoz_lims st).1 = dim.
Proof.
rewrite sample_rhozE size_map size_zip /rhoz_magnitudes /rhoz_sign_draws.
by rewrite !size_uniform minnn.
Qed.

Lemma signE (b : bool) (m : R) :
  m * bool_minus_half b * 2%:R = if b then m else - m.
Proof. by rewrite /bool_minus_half; case: b; to_R; lra. Qed.

Lemma nth_sample_rhoz dim rhoz_lims st i :
  (i < dim)%N ->
  nth 0 (sample_rhoz dim rhoz_lims st).1 i =
  let m := nth 0 (rhoz_magnitudes dim rhoz_lims st) i in
  if ltR (nth 0 (rhoz_sign_draws dim rhoz_lims st) i) half then m else - m.
Proof.
move=> lt_i; rewrite sample_rhozE.
have szm : size (rhoz_magnitudes dim rhoz_lims st) = dim by apply: size_uniform.
have szu : size (rhoz_sign_draws dim rhoz_lims st) = dim by apply: size_uniform.
rewrite (nth_map (0, 0)) ?size_zip ?szm ?szu ?minnn //.
by rewrite nth_zip ?szm ?szu //= signE.
Qed.

Lemma magnitude_range dim rhoz_lims st i :
  unit_interval_rng np -> Rle rhoz_lims.1 rhoz_lims.2 -> (i < dim)%N ->
  let m := nth 0 (rhoz_magnitudes dim rhoz_lims st) i in
  [/\ Rle rhoz_lims.1 m, Rle m rhoz_lims.2
    & Rlt rhoz_lims.1 rhoz_lims.2 -> Rlt m rhoz_lims.2].
Proof.
move=> rng_ok lh lt_i /=.
set P : pred R := fun x => [&& leR rhoz_lims.1 x, leR x rhoz_lims.2
                          & ltR rhoz_lims.1 rhoz_lims.2 ==> ltR x rhoz_lims.2].
have /allP/(_ (nth 0 (rhoz_magnitudes dim rhoz_lims st) i)) :
    all P (rhoz_magnitudes dim rhoz_lims st).
  apply: all_draws => st0; rewrite /P.
  case: (uniform1_range rng_ok st0 lh) => /leRP -> /leRP -> /=.
  by apply/implyP => /ltRP lt_lh; apply/ltRP; apply: uniform1_lt.
have szm : size (rhoz_magnitudes dim rhoz_lims st) = dim by apply: size_uniform.
rewrite mem_nth ?szm // => /(_ isT) /and3P[/leRP ? /leRP ? /implyP H]; split=> //.
by move=> /ltRP /H /ltRP.
Qed.

End Rhoz.



(** C1. Whenever [generate_example] returns, the [MI] it returns is
    [-0.5 * sum_i log(1 - rhoz[i]^2)] over the [dim] entries of the very
    [rhoz] it returns in [gen_params]. *)
Theorem generate_example_mi np fuel dim n rhoz_lims cond
    (st st' : rng_state np) (res : example dim n) :
  generate_example fuel dim n rhoz_lims cond st = Return (res, st') ->
  size (rhoz (params res)) = dim /\
  MI res = np_mul (Finite (- half))
             (np_sum [seq np_log (1 - r ^+ 2) | r <- rhoz (params res)]).
Proof.
move=> /generate_example_Return[rhozE -> _ _]; split=> //.
by rewrite rhozE size_sample_rhoz.
Qed.

Lemma generate_example_mi_witness :
  exists (res : example 2 3) st',
    @generate_example (fixed_np half 1) 1 2 3 (0, 1) (10%Re, 10%Re) 0%N
    = Return (res, st') /\
    size (rhoz (params res)) = 2%N /\
    MI res = np_mul (Finite (- half))
               (np_sum [seq np_log (1 - r ^+ 2) | r <- rhoz (params res)]).
Proof.
have ok (st0 : rng_state (fixed_np half 1)) : passes 2 st0.
  by rewrite passes_fixed_np; apply/ltRP; to_R; lra.
case: (@generate_example_returns (fixed_np half 1) 0 1 3 (0, 1)
         (10%Re, 10%Re) 0%N ok) => res [st' run].
by exists res, st'; split=> //; apply: generate_example_mi run.
Defined.






(** ** [compute_gaussian_mi] *)

Lemma slice_xxE dx dy (C : 'M[R]_(dx + dy)) : slice_xx C = ulsubmx C.
Proof. by apply/matrixP => i j; rewrite !mxE. Qed.

Lemma slice_xyE dx dy (C : 'M[R]_(dx + dy)) : slice_xy C = ursubmx C.
Proof. by apply/matrixP => i j; rewrite !mxE. Qed.

Lemma slice_yyE dx dy (C : 'M[R]_(dx + dy)) : slice_yy C = drsubmx C.
Proof. by apply/matrixP => i j; rewrite !mxE. Qed.

Lemma compute_gaussian_miE dx dy (C : 'M[R]_(dx + dy)) :
  compute_gaussian_mi C =
  if (slice_xx C \in unitmx) && (slice_yy C \in unitmx)
  then Return (mi_formula (slice_xx C) (slice_xy C) (slice_yy C))
  else Raise LinAlgError.
Proof.
rewrite /compute_gaussian_mi /linalg_inv slice_xxE slice_xyE slice_yyE.
by case: (ulsubmx C \in unitmx); case: (drsubmx C \in unitmx).
Qed.

Lemma np_logE (d : R) :
  np_mul (Finite (- half)) (np_log d) =
  if ltR 0 d then Finite (- half * ln d)
  else if d == 0 then PosInf else NaN.
Proof.
rewrite /np_log; case: ifP => // _; case: ifP => //= _.
rewrite /np_scale_inf.
have /negbTE -> : ~~ ltR 0 (- half) by apply/ltRP; to_R; lra.
by have -> : ltR (- half) 0 by apply/ltRP; to_R; lra.
Qed.


(** C2. On a square array of [2 * dim] rows, [compute_gaussian_mi] returns
    [-0.5 * log(det(I - Bxy @ Byx))] with [Bxy = inv(C[:dim,:dim]) @
    C[:dim,dim:]] and [Byx = inv(C[dim:,dim:]) @ C[:dim,dim:].T], and it
    succeeds exactly when the two diagonal blocks can be inverted. *)
Theorem compute_gaussian_mi_formula dim (C : 'M[R]_(dim + dim)) :
  let Sxx := slice_xx C in
  let Sxy := slice_xy C in
  let Syy := slice_yy C in
  compute_gaussian_mi C =
  if (Sxx \in unitmx) && (Syy \in unitmx) then
    let Bxy := invmx Sxx *m Sxy in
    let Byx := invmx Syy *m Sxy^T in
    Return (np_mul (Finite (- half)) (np_log (\det (1%:M - Bxy *m Byx))))
  else Raise LinAlgError.
Proof. exact: compute_gaussian_miE. Qed.


Lemma slices_mx2 (a b c d : R) :
  [/\ slice_xx (mx2 a b c d) = a%:M, slice_xy (mx2 a b c d) = b%:M
    & slice_yy (mx2 a b c d) = d%:M].
Proof.
by rewrite slice_xxE slice_xyE slice_yyE block_mxKul block_mxKur block_mxKdr.
Qed.

Lemma mi_det_mx2 (a b d : R) :
  mi_det (a%:M : 'M_1) (b%:M : 'M_1) (d%:M : 'M_1) =
  1 - (a^-1 * b) * (d^-1 * b).
Proof.
rewrite /mi_det /= !invmx_scalar tr_scalar_mx -!scalar_mxM.
by rewrite -[1%:M]/(1%:M : 'M[R]_1) -raddfB /= det_scalar1.
Qed.


(** C9. [compute_gaussian_mi] never reads the lower-left block: two arrays
    of [2 * dim] rows that agree on every entry outside that block give the
    same result, raised error included. *)
Theorem lower_left_block_is_ignored dim (C1 C2 : 'M[R]_(dim + dim)) :
  (forall i j, ~~ in_lower_left i j -> C1 i j = C2 i j) ->
  compute_gaussian_mi C1 = compute_gaussian_mi C2.
Proof.
move=> agree; rewrite !compute_gaussian_miE.
have -> : slice_xx C1 = slice_xx C2.
  apply/matrixP => i j; rewrite !mxE; apply: agree.
  by rewrite /in_lower_left /= leqNgt ltn_ord.
have -> : slice_xy C1 = slice_xy C2.
  apply/matrixP => i j; rewrite !mxE; apply: agree.
  by rewrite /in_lower_left /= leqNgt ltn_ord.
have -> // : slice_yy C1 = slice_yy C2.
apply/matrixP => i j; rewrite !mxE; apply: agree.
by rewrite /in_lower_left /= ltnNge !leq_addr.
Qed.

Lemma mx2E (a b c d : R) (i j : 'I_(1 + 1)) :
  mx2 a b c d i j =
  if (i == 0 :> nat) then (if (j == 0 :> nat) then a else b)
  else (if (j == 0 :> nat) then c else d).
Proof.
rewrite /mx2 mxE; case: (splitP i) => i' ->; rewrite mxE;
  case: (splitP j) => j' ->; rewrite mxE !ord1 /= ?mulr1n //.
Qed.

Lemma lower_left_block_is_ignored_witness :
  compute_gaussian_mi (mx2 2%Re 1 0 2%Re) =
  compute_gaussian_mi (mx2 2%Re 1 7%Re 2%Re).
Proof.
apply: lower_left_block_is_ignored => i j.
rewrite !mx2E /in_lower_left /= lt0n ltnS leqn0.
by case: (i == 0 :> nat) => //=; case: (j == 0 :> nat).
Defined.

(** ** [estimate_mvn_mi] *)




(** A single row is another matter: [np.cov] squeezes its result to a 0-d
    array, and [Chat.shape[0]] fails. *)
Lemma estimate_mvn_mi_one_row n (data : 'M[R]_(1, n)) :
  estimate_mvn_mi data = Raise IndexError.
Proof. by []. Qed.

(** ** The round trip through the joint covariance *)

Section RoundTripAlgebra.

Variable dim : nat.
Implicit Types (A : 'M[R]_dim) (d : 'rV[R]_dim).





End RoundTripAlgebra.

(** *** The closed form is the logarithm of a product *)

Lemma np_sum_log (s : seq R) :
  all (ltR 0) s ->
  (0 < \prod_(x <- s) x)%Re /\
  np_sum [seq np_log x | x <- s] = Finite (ln (\prod_(x <- s) x)).
Proof.
elim: s => [_|x s IH /= /andP[x_pos /IH[prod_pos sumE]]].
  rewrite big_nil /=; split; first by to_R; lra.
  by congr Finite; to_R; rewrite ln_1.
rewrite big_cons sumE /np_log x_pos /=; move/ltRP: x_pos => x_pos.
split; first exact: Rmult_lt_0_compat.
by rewrite ln_mult.
Qed.

Lemma exact_mi_finite (rhoz : seq R) :
  all (fun r => ltR 0 (1 - r ^+ 2)) rhoz ->
  let d := \prod_(r <- rhoz) (1 - r ^+ 2) in
  (0 < d)%Re /\ exact_mi rhoz = Finite (- half * ln d).
Proof.
move=> pos /=.
have /np_sum_log[] : all (ltR 0) [seq 1 - r ^+ 2 | r <- rhoz] by rewrite all_map.
by rewrite big_map /exact_mi -map_comp => d_pos ->.
Qed.



(** *** What a returned example provides *)

Lemma sample_rhoz_below_one np dim (low high : R) (st : rng_state np) :
  unit_interval_rng np ->
  (0 <= low)%Re -> (low <= high)%Re -> (high <= 1)%Re -> (low < 1)%Re ->
  all (fun r => ltR 0 (1 - r ^+ 2)) (sample_rhoz dim (low, high) st).1.
Proof.
move=> rng_ok low0 lh high1 low1; apply/(all_nthP 0) => i.
rewrite size_sample_rhoz => lt_i; rewrite nth_sample_rhoz //=.
case: (@magnitude_range np dim (low, high) st i rng_ok lh lt_i) => /=.
set m := nth 0 _ i => lo_m m_hi m_lt.
have m1 : (m < 1)%Re.
  by case: (Rle_lt_or_eq_dec _ _ lh) => [/m_lt|eq_lh]; lra.
by apply/ltRP; case: ifP => _; rewrite expr2; to_R; nra.
Qed.



(** The factor [eigenvectors @ diag(sqrt(spectrum))] of lines 89 and 92 is
    a factor of the covariance matrix [sample_cov_matrix] returns. *)
Lemma generative_factor dim (E : 'M[R]_dim) (s : seq R) :
  all (fun x => leR 0 x) s -> size s = dim ->
  let A := E *m diag_mx (vec dim [seq sqrt x | x <- s]) in
  A *m A^T = E *m diag_mx (vec dim s) *m E^T.
Proof.
move=> /allP ge0 sz /=; rewrite trmx_mul tr_diag_mx !mulmxA; congr (_ *m _).
rewrite -mulmxA; congr (_ *m _).
apply/matrixP => i j; rewrite mul_diag_mx !mxE.
case: eqP => _; rewrite ?mulr0n ?mulr0 // !mulr1n.
rewrite (nth_map 0) ?sz //; apply: sqrt_sqrt.
by apply/leRP/ge0; rewrite mem_nth // sz.
Qed.




(** * Further properties of the code *)

(** ** [sample_cov_matrix]: the returned decomposition *)

Lemma eigenvectors_fixed_np (u e : R) dim (st : rng_state (fixed_np u e)) :
  (attempt dim st).1.2 = 1%:M.
Proof. by rewrite /attempt; case: (normal _ _ _ _ _). Qed.

Lemma sample_cov_matrix_fixed_np (u e c : R) fuel dim
    (st : rng_state (fixed_np u e)) :
  ~~ ltR e 0 ->
  exists st',
    sample_cov_matrix fuel.+1 dim.+1 c st =
    Return (1%:M *m diag_mx (vec dim.+1 (sample_spectrum dim.+1 c st).1)
              *m 1%:M^T,
            (sample_spectrum dim.+1 c st).1, 1%:M, st').
Proof.
move=> e_ok; rewrite sample_cov_matrix_returns ?passes_fixed_np //.
case: (sample_spectrum _ _ _) => s st1 /=; rewrite eigenvectors_fixed_np.
by eexists.
Qed.

(** X1. The covariance matrix that [sample_cov_matrix] returns is symmetric,
    whatever the eigensolver answered. *)
Theorem cov_matrix_symmetric np fuel dim (cond : R) (st st' : rng_state np)
    (C E : 'M[R]_dim) (spectrum : seq R) :
  sample_cov_matrix fuel dim cond st = Return (C, spectrum, E, st') ->
  C^T = C.
Proof.
move=> /sample_cov_matrix_Return[_ ->].
by rewrite !trmx_mul trmxK tr_diag_mx mulmxA.
Qed.

Lemma cov_matrix_symmetric_witness :
  exists (C E : 'M[R]_2) spectrum st',
    @sample_cov_matrix (fixed_np half 1) 1 2 3%Re 0%N
    = Return (C, spectrum, E, st') /\ C^T = C.
Proof.
have e_ok : ~~ ltR 1 0 by apply/ltRP; to_R; lra.
case: (@sample_cov_matrix_fixed_np half 1 3%Re 0 1 0%N e_ok) => st' run.
do 4![eexists]; split; first exact: run.
exact: cov_matrix_symmetric run.
Defined.

(** X2. When the returned eigenvectors are orthonormal, the returned triple
    is an eigendecomposition, as the docstring says: column [j] of
    [eigenvectors] is an eigenvector of [cov_matrix] for [spectrum[j]]. *)
Theorem cov_matrix_eigendecomposition np fuel dim (cond : R)
    (st st' : rng_state np) (C E : 'M[R]_dim) (spectrum : seq R) :
  sample_cov_matrix fuel dim cond st = Return (C, spectrum, E, st') ->
  E^T *m E = 1%:M ->
  C *m E = E *m diag_mx (vec dim spectrum) /\
  forall j, C *m col j E = nth 0 spectrum j *: col j E.
Proof.
move=> /sample_cov_matrix_Return[_ ->] orth.
have CE : E *m diag_mx (vec dim spectrum) *m E^T *m E
          = E *m diag_mx (vec dim spectrum).
  by rewrite -mulmxA orth mulmx1.
split=> // j.
have -> : forall A : 'M[R]_dim, A *m col j E = col j (A *m E).
  by move=> A; apply/matrixP => i k; rewrite !mxE; apply: eq_bigr => l _; rewrite !mxE.
by rewrite CE; apply/matrixP => i k; rewrite mul_mx_diag !mxE mulrC.
Qed.

Lemma cov_matrix_eigendecomposition_witness :
  exists (C E : 'M[R]_2) spectrum st',
    @sample_cov_matrix (fixed_np half 1) 1 2 3%Re 0%N
    = Return (C, spectrum, E, st') /\
    C *m E = E *m diag_mx (vec 2 spectrum).
Proof.
have e_ok : ~~ ltR 1 0 by apply/ltRP; to_R; lra.
case: (@sample_cov_matrix_fixed_np half 1 3%Re 0 1 0%N e_ok) => st' run.
do 4![eexists]; split; first exact: run.
have orth : (1%:M : 'M[R]_2)^T *m 1%:M = 1%:M by rewrite trmx1 mulmx1.
by case: (cov_matrix_eigendecomposition run orth).
Defined.

(** X3. The spread of the returned spectrum is at most the target
    conditioning number: for [cond >= 1], any two eigenvalues satisfy
    [spectrum[i] <= cond * spectrum[j]]. *)
Theorem spectrum_conditioning np fuel dim (cond : R) (st st' : rng_state np)
    (C E : 'M[R]_dim) (spectrum : seq R) (i j : nat) :
  unit_interval_rng np -> (1 <= cond)%Re ->
  sample_cov_matrix fuel dim cond st = Return (C, spectrum, E, st') ->
  (i < dim)%N -> (j < dim)%N ->
  let si := nth 0 spectrum i in
  let sj := nth 0 spectrum j in
  (si <= cond * sj)%Re.
Proof.
move=> rng_ok c1 /sample_cov_matrix_Return[-> _] lt_i lt_j /=.
have sz := size_sample_spectrum dim cond st.
have /allP in_range := range_sample_spectrum dim st rng_ok c1.
have /in_range/andP[/leRP] : nth 0 (sample_spectrum dim cond st).1 i
    \in (sample_spectrum dim cond st).1 by rewrite mem_nth ?sz.
have /in_range/andP[/leRP] : nth 0 (sample_spectrum dim cond st).1 j
    \in (sample_spectrum dim cond st).1 by rewrite mem_nth ?sz.
set si := nth 0 _ i; set sj := nth 0 _ j.
by move=> sj1 /leRP sjc si1 /leRP sic; move: sj1 si1; to_R; nra.
Qed.

Lemma spectrum_conditioning_witness :
  exists (C E : 'M[R]_2) spectrum st',
    @sample_cov_matrix (fixed_np half 1) 1 2 3%Re 0%N
    = Return (C, spectrum, E, st') /\
    let s0 := nth 0 spectrum 0 in
    let s1 := nth 0 spectrum 1 in
    (s0 <= 3 * s1)%Re.
Proof.
have e_ok : ~~ ltR 1 0 by apply/ltRP; to_R; lra.
have rng_ok : unit_interval_rng (fixed_np half 1).
  by apply: fixed_np_unit_interval; to_R; lra.
have c1 : (1 <= 3)%Re by lra.
case: (@sample_cov_matrix_fixed_np half 1 3%Re 0 1 0%N e_ok) => st' run.
do 4![eexists]; split; first exact: run.
exact: (spectrum_conditioning (i := 0) (j := 1) rng_ok c1 run).
Defined.

(** X4. The loop of [sample_cov_matrix] is always entered: whenever the call
    returns, the eigenvectors are those the eigensolver found at some pass
    [k], never the initial [np.eye(dim)] as such; that pass is the first
    whose minimum eigenvalue is not negative, and the generator is returned
    as that pass left it. *)
Theorem returned_eigenvectors_come_from_a_pass np fuel dim (cond : R)
    (st st' : rng_state np) (C E : 'M[R]_dim) (spectrum : seq R) :
  sample_cov_matrix fuel dim cond st = Return (C, spectrum, E, st') ->
  let st1 := (sample_spectrum dim cond st).2 in
  exists k,
    [/\ (k < fuel)%N,
        passes dim (pass_state dim st1 k),
        forall k', (k' < k)%N -> ~~ passes dim (pass_state dim st1 k'),
        E = (attempt dim (pass_state dim st1 k)).1.2
      & st' = next_state dim (pass_state dim st1 k)].
Proof.
case: dim C E => [|dim] C E.
  case: fuel => [|fuel]; last by rewrite sample_cov_matrix0.
  rewrite /sample_cov_matrix; case: (sample_spectrum _ _ _) => s st1 /=.
  by have -> : ltR (- 1) 0 by apply/ltRP; to_R; lra.
move: (sample_cov_matrix_first_pass fuel dim cond st).
case: (sample_spectrum _ _ _) => s st1 -> /=.
case: ltnP => // lt_k [_ _ <- <-].
set p := fun k => passes dim.+1 (pass_state dim.+1 st1 k).
have has_p : has p (iota 0 fuel) by rewrite has_find size_iota.
exists (first_pass fuel dim.+1 st1); split=> //.
- have := nth_find 0%N has_p.
  by rewrite nth_iota // add0n.
- move=> k' lt_k'; have := before_find 0%N lt_k'.
  by rewrite nth_iota ?add0n ?(ltn_trans lt_k') // => ->.
Qed.

Lemma returned_eigenvectors_come_from_a_pass_witness :
  exists (C E : 'M[R]_2) spectrum st',
    @sample_cov_matrix (fixed_np half 1) 1 2 3%Re 0%N
    = Return (C, spectrum, E, st') /\
    exists k, (k < 1)%N /\
      E = (attempt 2 (pass_state 2 (@sample_spectrum (fixed_np half 1) 2 3%Re 0%N).2 k)).1.2.
Proof.
have e_ok : ~~ ltR 1 0 by apply/ltRP; to_R; lra.
case: (@sample_cov_matrix_fixed_np half 1 3%Re 0 1 0%N e_ok) => st' run.
do 4![eexists]; split; first exact: run.
case: (returned_eigenvectors_come_from_a_pass run) => k [lt_k _ _ eqE _].
by exists k.
Defined.

(** ** The bound on the passes followed does not matter once a call ends *)

Lemma rotation_loop_more_fuel np fuel k dim mini (E : 'M[R]_dim)
    (st : rng_state np) :
  rotation_loop fuel mini E st <> Diverge ->
  rotation_loop (fuel + k) mini E st = rotation_loop fuel mini E st.
Proof.
elim: fuel mini E st => [|fuel IH] mini E st.
  by rewrite /=; case: ifP => // nonneg _; rewrite rotation_loop_done ?nonneg.
rewrite addSn !rotation_loopS; case: ifP => // _.
by case: (attempt dim st).1.1 => //= mini'; apply: IH.
Qed.

Lemma sample_cov_matrix_more_fuel np fuel k dim (c : R) (st : rng_state np) :
  sample_cov_matrix fuel dim c st <> Diverge ->
  sample_cov_matrix (fuel + k) dim c st = sample_cov_matrix fuel dim c st.
Proof.
rewrite /sample_cov_matrix; case: (sample_spectrum _ _ _) => s st1.
move=> ends; rewrite rotation_loop_more_fuel //.
by move=> loops; move: ends; rewrite loops.
Qed.

(** X5. The number of passes the model is allowed to follow has no effect on
    a call of [generate_example] that ends: once it returns or raises, any
    larger bound gives the same outcome. *)
Theorem generate_example_more_fuel np fuel k dim n rhoz_lims cond
    (st : rng_state np) :
  generate_example fuel dim n rhoz_lims cond st <> Diverge ->
  generate_example (fuel + k) dim n rhoz_lims cond st
  = generate_example fuel dim n rhoz_lims cond st.
Proof.
rewrite /generate_example.
case: (sample_rhoz _ _ _) => r st1; case: (normal _ _ _ _ _) => zx st2.
case: (normal _ _ _ _ _) => nz st3 /=.
case ex: (sample_cov_matrix fuel _ _ _) => [[[[Cx sx] Ex] st4]|e|] //= ends;
  rewrite sample_cov_matrix_more_fuel ex //=.
case ey: (sample_cov_matrix fuel _ _ _) ends => [[[[Cy sy] Ey] st5]|e|] //= _;
  by rewrite sample_cov_matrix_more_fuel ey.
Qed.

Lemma generate_example_more_fuel_witness :
  @generate_example (fixed_np half 1) (1 + 5) 2 3 (0, 1) (10%Re, 10%Re) 0%N
  = @generate_example (fixed_np half 1) 1 2 3 (0, 1) (10%Re, 10%Re) 0%N.
Proof.
apply: generate_example_more_fuel.
have ok (st0 : rng_state (fixed_np half 1)) : passes 2 st0.
  by rewrite passes_fixed_np; apply/ltRP; to_R; lra.
by case: (@generate_example_returns (fixed_np half 1) 0 1 3 (0, 1)
            (10%Re, 10%Re) 0%N ok) => res [st' ->].
Defined.

(** ** [generate_example]: the data *)

Lemma np_sum_Finite (s : seq R) :
  np_sum [seq Finite x | x <- s] = Finite (\sum_(x <- s) x).
Proof. by elim: s => [|x s IH]; rewrite ?big_nil //= IH big_cons. Qed.

Lemma np_matmul_fin m n p (A : 'M[R]_(m, n)) (B : 'M[R]_(n, p)) :
  np_matmul (fin_mx A) (fin_mx B) = fin_mx (A *m B).
Proof.
apply/matrixP => i j; rewrite !mxE.
have -> : [seq np_mul (fin_mx A i k) (fin_mx B k j) | k <- enum 'I_n]
          = [seq Finite x | x <- [seq A i k * B k j | k <- enum 'I_n]].
  by rewrite -map_comp; apply: eq_map => k; rewrite /= !mxE.
by rewrite np_sum_Finite big_map big_enum.
Qed.

Lemma np_sum_has_nan (s : seq npfloat) : has is_nan s -> np_sum s = NaN.
Proof.
elim: s => [|x s IH] //= /orP[|/IH ->]; first by case: x.
by case: x.
Qed.

Lemma np_mul_nan (a : npfloat) : np_mul a NaN = NaN.
Proof. by case: a. Qed.

Lemma np_diag_sqrt dim (s : seq R) :
  all (fun x => leR 0 x) s -> size s = dim ->
  np_diag dim [seq np_sqrt x | x <- s]
  = fin_mx (diag_mx (vec dim [seq sqrt x | x <- s])).
Proof.
move=> /allP ge0 sz; apply/matrixP => i j; rewrite !mxE.
case: eqP => _; rewrite ?mulr0n // mulr1n.
rewrite (nth_map 0) ?sz // (nth_map 0) ?sz // /np_sqrt.
have /ge0/leRP s_i : nth 0 s i \in s by rewrite mem_nth ?sz.
by have /negbTE -> : ~~ ltR (nth 0 s i) 0 by apply/ltRP; lra.
Qed.

Section GenerateExampleData.

Variable np : numpy.
Implicit Types (st : rng_state np) (rhoz_lims cond : R * R).

(** The arrays of numpy floats that lines 85-92 compute. *)
Lemma generate_example_data fuel dim n rhoz_lims cond st
    (res : example dim n) st' :
  generate_example fuel dim n rhoz_lims cond st = Return (res, st') ->
  let rho := rhoz (params res) in
  let zx := latent_zx dim n rhoz_lims st in
  let noise := latent_noise dim n rhoz_lims st in
  let zy : 'M[npfloat]_(dim, n) :=
    \matrix_(i, s) np_add (Finite (nth 0 rho i * zx i s))
                     (np_mul (np_sqrt (1 - nth 0 rho i ^+ 2))
                             (Finite (noise s i))) in
  exists sx Ex st4 sy Ey,
    [/\ sample_cov_matrix fuel dim cond.1 (state_before_cov dim n rhoz_lims st)
        = Return (sigma_xx (params res), sx, Ex, st4),
        sample_cov_matrix fuel dim cond.2 st4
        = Return (sigma_yy (params res), sy, Ey, st'),
        data_x res =
        np_matmul (np_matmul (fin_mx Ex) (np_diag dim [seq np_sqrt x | x <- sx]))
                  (fin_mx zx)
      & data_y res =
        np_matmul (np_matmul (fin_mx Ey) (np_diag dim [seq np_sqrt x | x <- sy]))
                  zy].
Proof.
rewrite /generate_example /state_before_cov /latent_zx /latent_noise.
case: (sample_rhoz _ _ _) => r st1 /=; case: (normal _ _ _ _ _) => zx st2 /=.
case: (normal _ _ _ _ _) => nz st3 /=.
case ex: (sample_cov_matrix _ _ _ _) => [[[[Cx sx] Ex] st4]| |] //=.
case ey: (sample_cov_matrix _ _ _ _) => [[[[Cy sy] Ey] st5]| |] //= [<- <-] /=.
exists sx, Ex, st4, sy, Ey; split=> //; congr np_matmul.
by apply/matrixP => i s; rewrite !mxE.
Qed.

End GenerateExampleData.

Lemma returned_spectrum_nonneg np fuel dim (c : R) (st st' : rng_state np)
    (C E : 'M[R]_dim) (s : seq R) :
  unit_interval_rng np -> (1 <= c)%Re ->
  sample_cov_matrix fuel dim c st = Return (C, s, E, st') ->
  [/\ all (fun x => leR 0 x) s, size s = dim & coloring E s *m (coloring E s)^T = C].
Proof.
move=> rng_ok c1 run; case: (sample_cov_matrix_Return run) => sE CE.
have ge0 : all (fun x => leR 0 x) s.
  rewrite sE; apply: sub_all (range_sample_spectrum dim st rng_ok c1).
  by move=> x /andP[/leRP x1 _]; apply/leRP; move: x1; to_R; lra.
have sz : size s = dim by rewrite sE size_sample_spectrum.
by split=> //; rewrite CE; apply: generative_factor.
Qed.

Lemma colored_data dim n (E : 'M[R]_dim) (s : seq R) (z : 'M[R]_(dim, n)) :
  all (fun x => leR 0 x) s -> size s = dim ->
  np_matmul (np_matmul (fin_mx E) (np_diag dim [seq np_sqrt x | x <- s]))
            (fin_mx z)
  = fin_mx (coloring E s *m z).
Proof. by move=> ge0 sz; rewrite np_diag_sqrt // !np_matmul_fin. Qed.

(** X6. With a conditioning number [cond[0] >= 1] (and unit draws in
    [[0, 1)]), [data_x] holds no [nan]: it is the real matrix [Ax @ zx],
    where [zx] are the standard normal draws of line 84 and
    [Ax = eigenvectors_xx @ diag(sqrt(spectrum_xx))] is a factor of the
    returned [sigma_xx], [Ax @ Ax.T = sigma_xx]. *)
Theorem data_x_is_colored_noise np fuel dim n rhoz_lims (cond : R * R)
    (st st' : rng_state np) (res : example dim n) :
  unit_interval_rng np -> (1 <= cond.1)%Re ->
  generate_example fuel dim n rhoz_lims cond st = Return (res, st') ->
  exists sx Ex st4,
    [/\ sample_cov_matrix fuel dim cond.1 (state_before_cov dim n rhoz_lims st)
        = Return (sigma_xx (params res), sx, Ex, st4),
        data_x res = fin_mx (coloring Ex sx *m latent_zx dim n rhoz_lims st)
      & coloring Ex sx *m (coloring Ex sx)^T = sigma_xx (params res)].
Proof.
move=> rng_ok c1 /generate_example_data /= [sx [Ex [st4 [sy [Ey]]]]].
move=> [runx _ -> _]; exists sx, Ex, st4.
case: (returned_spectrum_nonneg rng_ok c1 runx) => ge0 sz fac.
by split=> //; apply: colored_data.
Qed.

Lemma data_x_is_colored_noise_witness :
  exists (res : example 2 3) st' (Ax : 'M[R]_2),
    [/\ @generate_example (fixed_np half 1) 1 2 3 (0, 1) (10%Re, 10%Re) 0%N
        = Return (res, st'),
        data_x res = fin_mx (Ax *m latent_zx 2 3 (0, 1) (0%N : rng_state (fixed_np half 1)))
      & Ax *m Ax^T = sigma_xx (params res)].
Proof.
have ok (st0 : rng_state (fixed_np half 1)) : passes 2 st0.
  by rewrite passes_fixed_np; apply/ltRP; to_R; lra.
have rng_ok : unit_interval_rng (fixed_np half 1).
  by apply: fixed_np_unit_interval; to_R; lra.
have c1 : (1 <= 10)%Re by lra.
case: (@generate_example_returns (fixed_np half 1) 0 1 3 (0, 1)
         (10%Re, 10%Re) 0%N ok) => res [st' run].
case: (data_x_is_colored_noise (cond := (10%Re, 10%Re)) rng_ok c1 run)
  => sx [Ex [st4 [_ dataE fac]]].
by exists res, st', (coloring Ex sx).
Defined.

Lemma sample_rhoz_sqrt_defined np dim (low high : R) (st : rng_state np) i :
  unit_interval_rng np ->
  (0 <= low)%Re -> (low <= high)%Re -> (high <= 1)%Re -> (i < dim)%N ->
  ~~ ltR (1 - nth 0 (sample_rhoz dim (low, high) st).1 i ^+ 2) 0.
Proof.
move=> rng_ok low0 lh high1 lt_i; rewrite nth_sample_rhoz //=.
case: (@magnitude_range np dim (low, high) st i rng_ok lh lt_i) => /=.
set m := nth 0 _ i => lo_m m_hi _.
by apply/ltRP; case: ifP => _; rewrite expr2; to_R; nra.
Qed.

(** X7. Within the contract on [rhoz_lims] ([0 <= low <= high <= 1]) and with
    [cond[1] >= 1], [data_y] holds no [nan]: it is the real matrix [Ay @ zy]
    with [zy[i, s] = rhoz[i] * zx[i, s] + sqrt(1 - rhoz[i]^2) * noise[s, i]]
    and [Ay] a factor of the returned [sigma_yy]. *)
Theorem data_y_is_colored_noise np fuel dim n (low high : R) (cond : R * R)
    (st st' : rng_state np) (res : example dim n) :
  unit_interval_rng np ->
  (0 <= low)%Re -> (low <= high)%Re -> (high <= 1)%Re -> (1 <= cond.2)%Re ->
  generate_example fuel dim n (low, high) cond st = Return (res, st') ->
  let zy := latent_zy (rhoz (params res)) (latent_zx dim n (low, high) st)
              (latent_noise dim n (low, high) st) in
  exists sy Ey st4,
    [/\ sample_cov_matrix fuel dim cond.2 st4
        = Return (sigma_yy (params res), sy, Ey, st'),
        data_y res = fin_mx (coloring Ey sy *m zy)
      & coloring Ey sy *m (coloring Ey sy)^T = sigma_yy (params res)].
Proof.
move=> rng_ok low0 lh high1 c1 run /=.
case: (generate_example_Return run) => rhozE _ _ _.
case: (generate_example_data run) => /= sx [Ex [st4 [sy [Ey [_ runy _ ->]]]]].
exists sy, Ey, st4.
case: (returned_spectrum_nonneg rng_ok c1 runy) => ge0 sz fac.
split=> //; rewrite -colored_data //; congr np_matmul.
apply/matrixP => i s; rewrite !mxE /np_sqrt rhozE.
by rewrite (negbTE (sample_rhoz_sqrt_defined st rng_ok low0 lh high1 (ltn_ord i))).
Qed.

Lemma data_y_is_colored_noise_witness :
  exists (res : example 2 3) st' (Ay : 'M[R]_2),
    [/\ @generate_example (fixed_np half 1) 1 2 3 ((/ 4)%Re, (3 / 4)%Re)
          (10%Re, 10%Re) 0%N = Return (res, st'),
        data_y res =
        fin_mx (Ay *m latent_zy (rhoz (params res))
                        (latent_zx 2 3 ((/ 4)%Re, (3 / 4)%Re)
                           (0%N : rng_state (fixed_np half 1)))
                        (latent_noise 2 3 ((/ 4)%Re, (3 / 4)%Re)
                           (0%N : rng_state (fixed_np half 1))))
      & Ay *m Ay^T = sigma_yy (params res)].
Proof.
have ok (st0 : rng_state (fixed_np half 1)) : passes 2 st0.
  by rewrite passes_fixed_np; apply/ltRP; to_R; lra.
have rng_ok : unit_interval_rng (fixed_np half 1).
  by apply: fixed_np_unit_interval; to_R; lra.
have c1 : (1 <= 10)%Re by lra.
have low0 : (0 <= / 4)%Re by lra.
have lh : (/ 4 <= 3 / 4)%Re by lra.
have high1 : (3 / 4 <= 1)%Re by lra.
case: (@generate_example_returns (fixed_np half 1) 0 1 3 ((/ 4)%Re, (3 / 4)%Re)
         (10%Re, 10%Re) 0%N ok) => res [st' run].
case: (data_y_is_colored_noise (cond := (10%Re, 10%Re)) rng_ok low0 lh high1
         c1 run) => sy [Ey [st4 [_ dataE fac]]].
by exists res, st', (coloring Ey sy).
Defined.

(** X8. Outside the contract nothing is refused and [data_y] is lost: if
    some returned correlation has [rhoz[i] * rhoz[i] > 1], the square root of line 85
    is [nan] and every entry of [data_y] is [nan]. *)
Theorem data_y_is_nan_beyond_one np fuel dim n rhoz_lims (cond : R * R)
    (st st' : rng_state np) (res : example dim n) (i : 'I_dim) :
  generate_example fuel dim n rhoz_lims cond st = Return (res, st') ->
  let rho := nth 0 (rhoz (params res)) i in
  (1 < rho * rho)%Re ->
  forall j s, data_y res j s = NaN.
Proof.
move=> /generate_example_data /= [sx [Ex [st4 [sy [Ey [_ _ _ ->]]]]]] big j s.
rewrite mxE; apply: np_sum_has_nan; rewrite has_map.
apply/hasP; exists i; first by rewrite mem_enum.
rewrite /= mxE /np_sqrt.
have -> : ltR (1 - nth 0 (rhoz (params res)) i ^+ 2) 0.
  by apply/ltRP; rewrite expr2; move: big; to_R; lra.
by rewrite /= np_mul_nan.
Qed.

Lemma data_y_is_nan_beyond_one_witness :
  exists (res : example 1 1) st',
    @generate_example (fixed_np 0 1) 1 1 1 (2%Re, 3%Re) (10%Re, 10%Re) 0%N
    = Return (res, st') /\
    forall j s, data_y res j s = NaN.
Proof.
have ok (st0 : rng_state (fixed_np 0 1)) : passes 1 st0.
  by rewrite passes_fixed_np; apply/ltRP; to_R; lra.
case: (@generate_example_returns (fixed_np 0 1) 0 0 1 (2%Re, 3%Re)
         (10%Re, 10%Re) 0%N ok) => res [st' run].
exists res, st'; split=> //.
apply: (data_y_is_nan_beyond_one (i := ord0) run).
case: (generate_example_Return run) => -> _ _ _.
rewrite sample_rhozE /rhoz_magnitudes /rhoz_sign_draws /= signE.
have -> : ltR (0 + (1 - 0) * 0) half by apply/ltRP; to_R; lra.
by to_R; lra.
Defined.

(** ** [generate_example]: the value of [MI] *)

Lemma prod_le_one (s : seq R) :
  all (fun x => ltR 0 x && leR x 1) s ->
  (0 < \prod_(x <- s) x <= 1)%Re.
Proof.
elim: s => [_|x s IH /= /andP[/andP[/ltRP x0 /leRP x1] /IH[p0 p1]]].
  by rewrite big_nil; to_R; lra.
rewrite big_cons; set P := \prod_(y <- s) y in p0 p1 *.
by move: x0 x1 p0 p1; to_R => x0 x1 p0 p1; split; nra.
Qed.

Lemma sample_rhoz_factor_range np dim (low high : R) (st : rng_state np) :
  unit_interval_rng np ->
  (0 <= low)%Re -> (low <= high)%Re -> (high <= 1)%Re -> (low < 1)%Re ->
  all (fun x => ltR 0 x && leR x 1)
      [seq 1 - r ^+ 2 | r <- (sample_rhoz dim (low, high) st).1].
Proof.
move=> rng_ok low0 lh high1 low1; rewrite all_map.
have := sample_rhoz_below_one dim st rng_ok low0 lh high1 low1.
apply: sub_all => r /= ->; apply/leRP; rewrite expr2; to_R.
by have := Rle_0_sqr r; rewrite /Rsqr; lra.
Qed.

(** X9. Within the contract on [rhoz_lims] ([0 <= low <= high <= 1],
    [low < 1]) the returned [MI] is a finite number, and it is not
    negative. *)
Theorem mi_is_finite_and_nonnegative np fuel dim n (low high : R)
    (cond : R * R) (st st' : rng_state np) (res : example dim n) :
  unit_interval_rng np ->
  (0 <= low)%Re -> (low <= high)%Re -> (high <= 1)%Re -> (low < 1)%Re ->
  generate_example fuel dim n (low, high) cond st = Return (res, st') ->
  exists v : R, MI res = Finite v /\ (0 <= v)%Re.
Proof.
move=> rng_ok low0 lh high1 low1 /generate_example_Return[rhozE -> _ _].
have pos := sample_rhoz_below_one dim st rng_ok low0 lh high1 low1.
have := sample_rhoz_factor_range dim st rng_ok low0 lh high1 low1.
rewrite rhozE; case: (exact_mi_finite pos) => /= d_pos ->.
move=> /prod_le_one; rewrite big_map => -[_ d_le1].
eexists; split; first by [].
set d := \prod_(r <- _) _ in d_pos d_le1 *.
have ln_le0 : (ln d <= 0)%Re.
  case: (Rle_lt_or_eq_dec _ _ d_le1) => [d_lt1|->]; last by rewrite ln_1; lra.
  by have := ln_increasing _ _ d_pos d_lt1; rewrite ln_1; lra.
by to_R; nra.
Qed.

Lemma mi_is_finite_and_nonnegative_witness :
  exists (res : example 2 3) st' (v : R),
    [/\ @generate_example (fixed_np half 1) 1 2 3 ((/ 4)%Re, (3 / 4)%Re)
          (10%Re, 10%Re) 0%N = Return (res, st'),
        MI res = Finite v & (0 <= v)%Re].
Proof.
have ok (st0 : rng_state (fixed_np half 1)) : passes 2 st0.
  by rewrite passes_fixed_np; apply/ltRP; to_R; lra.
have rng_ok : unit_interval_rng (fixed_np half 1).
  by apply: fixed_np_unit_interval; to_R; lra.
have low0 : (0 <= / 4)%Re by lra.
have lh : (/ 4 <= 3 / 4)%Re by lra.
have high1 : (3 / 4 <= 1)%Re by lra.
have low1 : (/ 4 < 1)%Re by lra.
case: (@generate_example_returns (fixed_np half 1) 0 1 3 ((/ 4)%Re, (3 / 4)%Re)
         (10%Re, 10%Re) 0%N ok) => res [st' run].
case: (mi_is_finite_and_nonnegative rng_ok low0 lh high1 low1 run) => v [miE v0].
by exists res, st', v.
Defined.

(** *** A degenerate interval [rhoz_lims = (c, c)] *)

Lemma draws_const np (draw : rng_state np -> R * rng_state np) (c : R) n
    (st : rng_state np) :
  (forall st', (draw st').1 = c) -> (draws draw n st).1 = nseq n c.
Proof.
move=> drawE; elim: n st => [|n IH] st //=.
move: (drawE st); case: (draw st) => x st1 /= ->.
by move: (IH st1); case: (draws draw n st1) => xs st2 /= ->.
Qed.

Lemma sample_rhoz_degenerate np dim (c : R) (st : rng_state np) :
  let rho := (sample_rhoz dim (c, c) st).1 in
  size rho = dim /\ all (fun r => (r == c) || (r == - c)) rho.
Proof.
split; first exact: size_sample_rhoz.
apply/(all_nthP 0) => i; rewrite size_sample_rhoz => lt_i.
have magnitudes : rhoz_magnitudes dim (c, c) st = nseq dim c.
  rewrite /rhoz_magnitudes /uniform; apply: draws_const => st0.
  by rewrite /uniform1; case: (random_sample st0) => u st1 /=; to_R; lra.
rewrite nth_sample_rhoz //= magnitudes nth_nseq lt_i.
by case: ifP => _; rewrite eqxx ?orbT.
Qed.

Lemma exact_mi_degenerate (c : R) (rho : seq R) :
  all (fun r => (r == c) || (r == - c)) rho ->
  exact_mi rho = exact_mi (nseq (size rho) c).
Proof.
move=> same; rewrite /exact_mi; congr (np_mul _ (np_sum _)).
elim: rho same => [|r rho IH] //= /andP[r_c /IH ->]; congr (_ :: _).
by case/orP: r_c => /eqP ->; rewrite // sqrrN.
Qed.

Lemma np_sum_nseq_zero n : np_sum (nseq n (Finite 0)) = Finite 0.
Proof. by elim: n => [|n IH] //=; rewrite IH; congr Finite; to_R; lra. Qed.

Lemma np_sum_nseq_neginf n : np_sum (nseq n.+1 NegInf) = NegInf.
Proof. by elim: n => [|n IH] //=; move: IH => /= ->. Qed.

(** X10. With [rhoz_lims = (c, c)] the draws do not matter: every returned
    correlation is [c] or [-c], and [MI] is the closed form of [dim] pairs of
    correlation [c], [-0.5 * dim * log(1 - c^2)] when [c^2 < 1]. *)
Theorem degenerate_interval np fuel dim n (c : R) (cond : R * R)
    (st st' : rng_state np) (res : example dim n) :
  generate_example fuel dim n (c, c) cond st = Return (res, st') ->
  [/\ forall i, (i < dim)%N ->
        let rho := nth 0 (rhoz (params res)) i in rho = c \/ rho = - c,
      MI res = exact_mi (nseq dim c)
    & (c * c < 1)%Re ->
      MI res = Finite (- half * (dim%:R * ln (1 - c * c)))].
Proof.
move=> /generate_example_Return[rhozE -> _ _].
case: (sample_rhoz_degenerate dim c st) => /= sz same.
have miE : exact_mi (rhoz (params res)) = exact_mi (nseq dim c).
  by rewrite rhozE (exact_mi_degenerate same) sz.
split=> // [i lt_i /=|c_lt1].
  move/(all_nthP 0)/(_ i): same; rewrite sz rhozE => /(_ lt_i).
  by case/orP => /eqP ->; [left|right].
rewrite miE.
have pos : all (fun r => ltR 0 (1 - r ^+ 2)) (nseq dim c).
  by rewrite all_nseq; apply/orP; right; apply/ltRP; rewrite expr2; to_R; lra.
case: (exact_mi_finite pos) => /= d_pos ->; congr (Finite (_ * _)).
have -> : (1 - c * c)%Re = 1 - c ^+ 2 by rewrite expr2; to_R; lra.
rewrite big_nseq.
elim: dim {sz same miE pos rhozE res d_pos} => [|k IH] /=.
  by to_R; rewrite ln_1 Rmult_0_l.
have f_pos : (0 < 1 - c ^+ 2)%Re by rewrite expr2; to_R; lra.
have p_pos : (0 < iter k ( *%R (1 - c ^+ 2)) 1)%Re.
  elim: (k) => [|m IHm] /=; first by to_R; lra.
  exact: Rmult_lt_0_compat.
rewrite [LHS]ln_mult // IH.
have -> : k.+1%:R = (k%:R + 1 : R) by rewrite -addn1 natrD.
set a : R := k%:R; set l := ln _.
by to_R; nra.
Qed.

Lemma degenerate_interval_witness :
  exists (res : example 2 3) st',
    @generate_example (fixed_np half 1) 1 2 3 ((/ 2)%Re, (/ 2)%Re)
      (10%Re, 10%Re) 0%N = Return (res, st') /\
    MI res = Finite (- half * (2%:R * ln (1 - / 2 * / 2)%Re)).
Proof.
have ok (st0 : rng_state (fixed_np half 1)) : passes 2 st0.
  by rewrite passes_fixed_np; apply/ltRP; to_R; lra.
case: (@generate_example_returns (fixed_np half 1) 0 1 3 ((/ 2)%Re, (/ 2)%Re)
         (10%Re, 10%Re) 0%N ok) => res [st' run].
exists res, st'; split=> //.
case: (degenerate_interval run) => _ _; apply; lra.
Defined.

Lemma exact_mi_nseq (c : R) n :
  exact_mi (nseq n c) =
  np_mul (Finite (- half)) (np_sum (nseq n (np_log (1 - c ^+ 2)))).
Proof. by rewrite /exact_mi map_nseq. Qed.

(** X11. Exactness at zero: with [rhoz_lims = (0, 0)] every returned
    correlation is 0 and [MI] is exactly 0, whatever the generator draws. *)
Theorem zero_correlation_gives_zero_mi np fuel dim n (cond : R * R)
    (st st' : rng_state np) (res : example dim n) :
  generate_example fuel dim n (0, 0) cond st = Return (res, st') ->
  rhoz (params res) = nseq dim 0 /\ MI res = Finite 0.
Proof.
move=> /generate_example_Return[rhozE -> _ _].
case: (sample_rhoz_degenerate dim 0%R st) => /= sz same.
split.
  apply: (@eq_from_nth _ 0); rewrite ?size_nseq rhozE // sz => i lt_i.
  rewrite nth_nseq lt_i.
  move/(all_nthP 0)/(_ i): same; rewrite sz => /(_ lt_i).
  by rewrite oppr0 orbb => /eqP.
rewrite rhozE (exact_mi_degenerate same) sz exact_mi_nseq.
have -> : np_log (1 - 0 ^+ 2)%R = Finite 0.
  rewrite /np_log expr2 mulr0 subr0.
  have -> : ltR 0 1 by apply/ltRP; to_R; lra.
  by congr Finite; to_R; rewrite ln_1.
by rewrite np_sum_nseq_zero /=; congr Finite; to_R; lra.
Qed.

Lemma zero_correlation_gives_zero_mi_witness :
  exists (res : example 2 3) st',
    @generate_example (fixed_np half 1) 1 2 3 (0, 0) (10%Re, 10%Re) 0%N
    = Return (res, st') /\
    rhoz (params res) = nseq 2 0 /\ MI res = Finite 0.
Proof.
have ok (st0 : rng_state (fixed_np half 1)) : passes 2 st0.
  by rewrite passes_fixed_np; apply/ltRP; to_R; lra.
case: (@generate_example_returns (fixed_np half 1) 0 1 3 (0, 0)
         (10%Re, 10%Re) 0%N ok) => res [st' run].
by exists res, st'; split=> //; apply: zero_correlation_gives_zero_mi run.
Defined.

(** X12. The singular end of the range: with [rhoz_lims = (1, 1)] and
    [dim >= 1] the logarithm of line 81 is taken at 0; nothing is raised and
    the returned [MI] is [+inf]. *)
Theorem unit_correlation_gives_infinite_mi np fuel dim n (cond : R * R)
    (st st' : rng_state np) (res : example dim.+1 n) :
  generate_example fuel dim.+1 n (1, 1) cond st = Return (res, st') ->
  MI res = PosInf.
Proof.
move=> /generate_example_Return[rhozE -> _ _].
case: (sample_rhoz_degenerate dim.+1 1%R st) => /= sz same.
rewrite rhozE (exact_mi_degenerate same) sz exact_mi_nseq.
have -> : np_log (1 - 1 ^+ 2)%R = NegInf.
  rewrite /np_log expr1n subrr eqxx.
  by have /negbTE -> : ~~ ltR 0 0 by apply/ltRP; to_R; lra.
rewrite np_sum_nseq_neginf /= /np_scale_inf.
have /negbTE -> : ~~ ltR 0 (- half) by apply/ltRP; to_R; lra.
by have -> : ltR (- half) 0 by apply/ltRP; to_R; lra.
Qed.

Lemma unit_correlation_gives_infinite_mi_witness :
  exists (res : example 2 3) st',
    @generate_example (fixed_np half 1) 1 2 3 (1, 1) (10%Re, 10%Re) 0%N
    = Return (res, st') /\ MI res = PosInf.
Proof.
have ok (st0 : rng_state (fixed_np half 1)) : passes 2 st0.
  by rewrite passes_fixed_np; apply/ltRP; to_R; lra.
case: (@generate_example_returns (fixed_np half 1) 0 1 3 (1, 1)
         (10%Re, 10%Re) 0%N ok) => res [st' run].
by exists res, st'; split=> //; apply: unit_correlation_gives_infinite_mi run.
Defined.

(** ** [compute_gaussian_mi]: what the closed form satisfies *)

(** X13. Two sides with no cross-covariance have no mutual information:
    when the upper-right block is zero the result is exactly 0 (and the call
    still fails on a singular diagonal block). *)
Theorem zero_cross_covariance_gives_zero_mi dx dy (C : 'M[R]_(dx + dy)) :
  slice_xy C = 0 ->
  compute_gaussian_mi C =
  if (slice_xx C \in unitmx) && (slice_yy C \in unitmx)
  then Return (Finite 0) else Raise LinAlgError.
Proof.
move=> xy0; rewrite compute_gaussian_miE; case: ifP => // _.
have det1E : mi_det (slice_xx C) (slice_xy C) (slice_yy C) = 1.
  by rewrite /mi_det xy0 /= mulmx0 mul0mx subr0 det1.
rewrite /mi_formula det1E np_logE.
have -> : ltR 0 1 by apply/ltRP; to_R; lra.
by congr (Return (Finite _)); to_R; rewrite ln_1; lra.
Qed.

Lemma zero_cross_covariance_gives_zero_mi_witness :
  compute_gaussian_mi (mx2 2%Re 0 5%Re 3%Re) = Return (Finite 0).
Proof.
case: (slices_mx2 2%Re 0 5%Re 3%Re) => xx xy yy.
have xy0 : slice_xy (mx2 2%Re 0 5%Re 3%Re) = 0.
  by rewrite xy; apply/matrixP => i j; rewrite !mxE mul0rn.
rewrite (zero_cross_covariance_gives_zero_mi xy0) xx yy.
have -> : (2%Re)%:M \in (unitmx : pred 'M[R]_1).
  by rewrite unitmxE det_scalar1 unitfE; apply/eqP; to_R; lra.
have -> // : (3%Re)%:M \in (unitmx : pred 'M[R]_1).
by rewrite unitmxE det_scalar1 unitfE; apply/eqP; to_R; lra.
Defined.

(** X14. The bivariate case, [dim = 1]: for the array [[a, b], [c, d]] the
    result is [-0.5 * log(1 - (b / a) * (b / d))], that is
    [-0.5 * log(1 - rho^2)] for the correlation [rho] of the pair when the
    array is a covariance; the call fails exactly when [a] or [d] is 0, and
    [c] plays no part. *)
Theorem bivariate_closed_form (a b c d : R) :
  compute_gaussian_mi (mx2 a b c d) =
  if (a != 0) && (d != 0)
  then Return (np_mul (Finite (- half)) (np_log (1 - (b / a) * (b / d))%R))
  else Raise LinAlgError.
Proof.
rewrite compute_gaussian_miE; case: (slices_mx2 a b c d) => -> -> ->.
rewrite !unitmxE !det_scalar1 !unitfE /mi_formula mi_det_mx2.
by rewrite [a^-1 * b]mulrC [d^-1 * b]mulrC.
Qed.

(** *** A linear map on each side *)

Lemma slices_transform_sides dx dy (A : 'M[R]_dx) (B : 'M[R]_dy)
    (C : 'M[R]_(dx + dy)) :
  [/\ slice_xx (transform_sides A B C) = A *m slice_xx C *m A^T,
      slice_xy (transform_sides A B C) = A *m slice_xy C *m B^T
    & slice_yy (transform_sides A B C) = B *m slice_yy C *m B^T].
Proof.
have blocks : transform_sides A B C =
    block_mx (A *m ulsubmx C *m A^T) (A *m ursubmx C *m B^T)
             (B *m dlsubmx C *m A^T) (B *m drsubmx C *m B^T).
  rewrite /transform_sides -{1}(submxK C) tr_block_mx !mulmx_block !trmx0.
  by rewrite !mul0mx !mulmx0 !addr0 !add0r.
rewrite !slice_xxE !slice_xyE !slice_yyE blocks.
by rewrite block_mxKul block_mxKur block_mxKdr.
Qed.

Lemma congruence_unit n (A S : 'M[R]_n) :
  A \in unitmx -> (A *m S *m A^T \in unitmx) = (S \in unitmx).
Proof. by move=> uA; rewrite !unitmx_mul unitmx_tr uA andbT. Qed.

Lemma invmx_congruence n p (A S : 'M[R]_n) (Z : 'M[R]_(n, p)) :
  A \in unitmx -> S \in unitmx ->
  invmx (A *m S *m A^T) *m (A *m Z) = invmx A^T *m (invmx S *m Z).
Proof.
move=> uA uS; have uG : A *m S *m A^T \in unitmx by rewrite congruence_unit.
apply: (can_inj (mulKmx uG)); rewrite mulKVmx //.
have uAT : A^T \in unitmx by rewrite unitmx_tr.
by rewrite -!mulmxA (mulKVmx uAT) (mulKVmx uS).
Qed.

Lemma mi_det_transform dx dy (A : 'M[R]_dx) (B : 'M[R]_dy)
    (Sxx : 'M[R]_dx) (Sxy : 'M[R]_(dx, dy)) (Syy : 'M[R]_dy) :
  A \in unitmx -> B \in unitmx -> Sxx \in unitmx -> Syy \in unitmx ->
  mi_det (A *m Sxx *m A^T) (A *m Sxy *m B^T) (B *m Syy *m B^T)
  = mi_det Sxx Sxy Syy.
Proof.
move=> uA uB uSxx uSyy; rewrite /mi_det /=.
have uAT : A^T \in unitmx by rewrite unitmx_tr.
have uBT : B^T \in unitmx by rewrite unitmx_tr.
rewrite -[A *m Sxy *m B^T]mulmxA invmx_congruence //.
rewrite !trmx_mul trmxK -[B *m Sxy^T *m A^T]mulmxA invmx_congruence //.
set P := invmx Sxx *m Sxy *m (invmx Syy *m Sxy^T).
have -> : invmx A^T *m (invmx Sxx *m (Sxy *m B^T))
            *m (invmx B^T *m (invmx Syy *m (Sxy^T *m A^T)))
          = invmx A^T *m P *m A^T.
  rewrite /P !mulmxA.
  by rewrite -[_ *m B^T *m invmx B^T]mulmxA mulmxV // mulmx1.
have -> : 1%:M - invmx A^T *m P *m A^T = invmx A^T *m (1%:M - P) *m A^T.
  by rewrite mulmxBr mulmxBl mulmx1 mulVmx.
by rewrite !det_mulmx det_inv mulrAC mulVf ?mul1r.
Qed.

(** X15.  The value does not depend on the coordinates of either side: when
    [x] is replaced by [A x] and [y] by [B y] with [A] and [B] invertible, the
    covariance [C] becomes [T C T^T] with [T = [[A, 0], [0, B]]], and
    [compute_gaussian_mi] gives the same outcome on it, value or
    [LinAlgError] alike. *)
Theorem compute_gaussian_mi_invariant dx dy (A : 'M[R]_dx) (B : 'M[R]_dy)
    (C : 'M[R]_(dx + dy)) :
  A \in unitmx -> B \in unitmx ->
  compute_gaussian_mi (transform_sides A B C) = compute_gaussian_mi C.
Proof.
move=> uA uB; rewrite !compute_gaussian_miE.
have [-> -> ->] := slices_transform_sides A B C.
rewrite !congruence_unit //.
case uxx : (slice_xx C \in unitmx) => //=.
case uyy : (slice_yy C \in unitmx) => //=.
by rewrite /mi_formula mi_det_transform.
Qed.

Lemma compute_gaussian_mi_invariant_witness :
  compute_gaussian_mi
    (transform_sides (2%:M : 'M[R]_1) (half%:M : 'M[R]_1) (mx2 2 1 1 2))
  = compute_gaussian_mi (mx2 2 1 1 2).
Proof.
apply: compute_gaussian_mi_invariant; rewrite unitmxE det_scalar1 unitfE;
  apply/eqP; to_R; lra.
Defined.

(** *** Exchanging the two sides *)

(** Sylvester's identity, [det (I - A B) = det (I - B A)]. *)
Lemma det_one_sub_mulC m n (A : 'M[R]_(m, n)) (B : 'M[R]_(n, m)) :
  \det (1%:M - A *m B) = \det (1%:M - B *m A).
Proof.
pose M : 'M[R]_(m + n) := block_mx 1%:M A B 1%:M.
pose L : 'M[R]_(m + n) := block_mx 1%:M 0 (- B) 1%:M.
have detL : \det L = 1 by rewrite det_lblock !det1 mulr1.
have ML : M *m L = block_mx (1%:M - A *m B) A 0 1%:M.
  by rewrite /M /L mulmx_block !mulmx1 !mul1mx !mulmx0 mulmxN !add0r subrr.
have LM : L *m M = block_mx 1%:M A 0 (1%:M - B *m A).
  rewrite /M /L mulmx_block !mulmx1 !mul1mx !mul0mx !mulNmx !addr0 addNr.
  by rewrite [- _ + _]addrC.
have <- : \det (M *m L) = \det (1%:M - A *m B).
  by rewrite ML det_ublock det1 mulr1.
have <- : \det (L *m M) = \det (1%:M - B *m A).
  by rewrite LM det_ublock det1 mul1r.
by rewrite !det_mulmx mulrC.
Qed.

Lemma slices_swap_sides dx dy (C : 'M[R]_(dx + dy)) :
  [/\ slice_xx (swap_sides C) = slice_yy C,
      slice_xy (swap_sides C) = dlsubmx C
    & slice_yy (swap_sides C) = slice_xx C].
Proof.
rewrite !slice_xxE !slice_xyE !slice_yyE /swap_sides.
by rewrite block_mxKul block_mxKur block_mxKdr.
Qed.

Lemma dlsubmx_sym dx dy (C : 'M[R]_(dx + dy)) :
  C^T = C -> dlsubmx C = (slice_xy C)^T.
Proof.
move=> symC; rewrite slice_xyE -{1}symC -{1}(submxK C) tr_block_mx.
by rewrite block_mxKdl.
Qed.

(** X16.  The value is symmetric in the two sides: for a symmetric array,
    [compute_gaussian_mi] gives the same outcome when the sides are exchanged,
    that is on the covariance of [(y, x)] with [dim] the dimension of [y]. *)
Theorem compute_gaussian_mi_symmetric dx dy (C : 'M[R]_(dx + dy)) :
  C^T = C ->
  compute_gaussian_mi (swap_sides C) = compute_gaussian_mi C.
Proof.
move=> symC; rewrite !compute_gaussian_miE.
have [-> -> ->] := slices_swap_sides C.
rewrite andbC; case: ifP => // _; congr (Return _).
rewrite /mi_formula /mi_det /= (dlsubmx_sym symC) trmxK.
by rewrite det_one_sub_mulC.
Qed.

Lemma compute_gaussian_mi_symmetric_witness :
  compute_gaussian_mi (swap_sides (mx2 2 1 1 3))
  = compute_gaussian_mi (mx2 2 1 1 3).
Proof.
apply: compute_gaussian_mi_symmetric.
by rewrite /mx2 tr_block_mx !tr_scalar_mx.
Defined.
